(** * The bingo sheet engine of qrbingo

    A shallow embedding of the [BingoSheet] model class (generation of a
    sheet from a catalog of prize variations, matching a scanned payload,
    punching, and detection of completed lines), followed by the properties
    its specification states about it.

    Conventions of the embedding.
    - A JavaScript array is a [list]; [arr[i]] is the lookup [arr !! i],
      whose [None] is JavaScript's [undefined].
    - Reading a property of [undefined] raises a [TypeError]; calls that can
      do so return an [outcome].
    - Sheet dimensions, indices and coordinates are natural numbers.
    - [Math.random] is a source of draws: the [k]-th call of a run is
      [random k], and the only state it has is the count of calls made.
    - A loop without a syntactic bound takes fuel; [None] means the loop was
      still running when the fuel ran out. *)

From stdpp Require Import base numbers option list strings.

(** ** Outcomes *)

Inductive outcome (A : Type) : Type :=
  | Ok (a : A)
  | TypeError.
Arguments Ok {A} a.
Arguments TypeError {A}.

(** ** Generic array helpers *)

(** [Array.prototype.flat()] on an array of arrays: one level of nesting is
    removed, rows are laid out one after the other. *)
Definition flat {A : Type} (xss : list (list A)) : list A := mjoin xss.

(** The destructuring swap [[arr[i], arr[j]] = [arr[j], arr[i]]]: the right
    hand side is read first, then [arr[i]] and [arr[j]] are written in that
    order. The shuffle only calls it with [j <= i < arr.length]; outside
    that range the array is left as it is here. *)
Definition swap {T : Type} (arr : list T) (i j : nat) : list T :=
  match arr !! i, arr !! j with
  | Some ai, Some aj => <[j := ai]> (<[i := aj]> arr)
  | _, _ => arr
  end.

(** [every(slot => slot.punched)] over an array whose entries may be
    [undefined]: entries are visited in order, the visit stops at the first
    unpunched slot, and an [undefined] entry that is reached raises. *)
Fixpoint every_by {A : Type} (p : A → bool) (line : list (option A)) : outcome bool :=
  match line with
  | [] => Ok true
  | None :: _ => TypeError
  | Some a :: rest => if p a then every_by p rest else Ok false
  end.

(** How many entries of [l] are [e]. *)
Definition count_of {T : Type} `{EqDecision T} (e : T) (l : list T) : nat :=
  length (filter (λ a, a = e) l).

(** The entries of an array that are not [undefined]. *)
Definition defined {A : Type} (line : list (option A)) : list A := omap id line.

(** ** Randomness *)

Section Shuffle.
Variable random : nat → nat.

(** [Math.floor(Math.random() * bound)] at the [k]-th call: an integer
    below [bound]; every such integer is the result of some draw. *)
Definition random_below (bound k : nat) : nat := random k mod bound.

(** The body of [arrayShuffle]'s loop, for [i] down to [1]; [k] counts
    the calls of [Math.random] made so far. *)
Fixpoint arrayShuffle_loop {T : Type} (i : nat) (arr : list T) (k : nat) : list T * nat :=
  match i with
  | 0 => (arr, k)
  | S i' =>
      let j := random_below (i + 1) k in
      arrayShuffle_loop i' (swap arr i j) (S k)
  end.

(** [arrayShuffle(arr)]: shuffles [arr] in place and returns it. The
    result is the new content of the array that was passed in. *)
Definition arrayShuffle {T : Type} (arr : list T) (k : nat) : list T * nat :=
  arrayShuffle_loop (length arr - 1) arr k.
End Shuffle.

(** ** Data model *)

Record Position : Type := { pos_x : nat; pos_y : nat }.

#[global] Instance Position_eq_dec : EqDecision Position.
Proof. solve_decision. Defined.

Section Model.
Context {Value : Type}.
(** The strict equality [===] on slot values. Nothing is assumed of it:
    on numbers it is not reflexive ([NaN !== NaN]). *)
Variable strict_eq : Value → Value → bool.
Variable random : nat → nat.
(** What [new Date()] reads when a sheet is constructed. *)
Variable now : nat.

(** A catalog entry ([IBingoSlotConfig]). *)
Record IBingoSlotConfig : Type := {
  cfg_value : Value;
  cfg_label : string;
  cfg_description : string;
  cfg_imageURL : string
}.

#[global] Instance IBingoSlotConfig_eq_dec `{EqDecision Value} :
  EqDecision IBingoSlotConfig.
Proof. solve_decision. Defined.

(** Modelled from the spec: the [BingoSlot] class, whose file [slot.ts]
    is not among the sources. A slot carries a value, display metadata,
    its grid position and the two flags [punched] and [bingo], which
    both start [false]. *)
Record BingoSlot : Type := {
  value : Value;
  label : string;
  description : string;
  imageURL : string;
  position : Position;
  punched : bool;
  bingo : bool
}.

Definition new_BingoSlot (v : Value) (l d u : string) (p : Position) : BingoSlot :=
  {| value := v; label := l; description := d; imageURL := u;
     position := p; punched := false; bingo := false |}.

(** [slot.punched = true] and [slot.bingo = true]. *)
Definition mark_punched (sl : BingoSlot) : BingoSlot :=
  {| value := value sl; label := label sl; description := description sl;
     imageURL := imageURL sl; position := position sl;
     punched := true; bingo := bingo sl |}.

Definition mark_bingo (sl : BingoSlot) : BingoSlot :=
  {| value := value sl; label := label sl; description := description sl;
     imageURL := imageURL sl; position := position sl;
     punched := punched sl; bingo := true |}.

(** The catalog entry a slot was created from. *)
Definition variation_of (sl : BingoSlot) : IBingoSlotConfig :=
  {| cfg_value := value sl; cfg_label := label sl;
     cfg_description := description sl; cfg_imageURL := imageURL sl |}.

(** Modelled from the spec: the scan payload of [qrcode.ts], an object
    of which only [value] is read. *)
Record Payload : Type := { payload_value : Value }.

(** [IBingoConfig]. Its [slot.variations] is a reference to an array
    owned by the caller; the content of that array lives in the [Store]. *)
Record IBingoConfig : Type := { sheet_width : nat; sheet_height : nat }.

(** What generation reads and writes besides its arguments: the content
    of the caller's catalog array, and the number of random draws made. *)
Record Store : Type := { variations : list IBingoSlotConfig; draws : nat }.

(** [BingoSheet]; [sheet_length] is the field [length]. *)
Record BingoSheet : Type := {
  width : nat;
  height : nat;
  slots : list (list BingoSlot);
  sheet_length : nat;
  initialized : nat
}.

(** The constructor; [date] is [props.date]. *)
Definition new_BingoSheet (w h : nat) (sl : list (list BingoSlot))
    (date : option nat) : BingoSheet :=
  {| width := w; height := h; slots := sl;
     sheet_length := w * h; initialized := default now date |}.

Definition with_slots (s : BingoSheet) (sl : list (list BingoSlot)) : BingoSheet :=
  {| width := width s; height := height s; slots := sl;
     sheet_length := sheet_length s; initialized := initialized s |}.

(** [slots[y][x]]. *)
Definition cell (s : BingoSheet) (y x : nat) : option BingoSlot :=
  match slots s !! y with
  | Some row => row !! x
  | None => None
  end.

(** ** Generation *)

(** The [while] loop of [getShuffledListWithLength]: as long as [dest] is
    shorter than [len], the catalog array is shuffled in place and its
    content is appended to [dest]. *)
Fixpoint fill_loop (fuel : nat) (dest : list IBingoSlotConfig) (len : nat)
    (st : Store) : option (list IBingoSlotConfig * Store) :=
  if decide (length dest < len) then
    match fuel with
    | 0 => None
    | S fuel' =>
        let '(arr, k) := arrayShuffle random (variations st) (draws st) in
        fill_loop fuel' (dest ++ arr) len {| variations := arr; draws := k |}
    end
  else Some (dest, st).

Definition getShuffledListWithLength (fuel : nat) (len : nat) (st : Store)
    : option (list IBingoSlotConfig * Store) :=
  match fill_loop fuel [] len st with
  | Some (dest, st') => Some (take len dest, st')
  | None => None
  end.

Definition createSlot (variation : IBingoSlotConfig) (index w : nat) : BingoSlot :=
  let '(x, y) := (index mod w, index / w) in
  new_BingoSlot (cfg_value variation) (cfg_label variation)
    (cfg_description variation) (cfg_imageURL variation)
    {| pos_x := x; pos_y := y |}.

(** [slots[slot.position.y].push(slot)]. *)
Definition push_slot (rows : list (list BingoSlot)) (slot : BingoSlot)
    : outcome (list (list BingoSlot)) :=
  match rows !! pos_y (position slot) with
  | Some row => Ok (<[pos_y (position slot) := row ++ [slot]]> rows)
  | None => TypeError
  end.

(** The callback of [init] run over the shuffled list from index [i] on. *)
Fixpoint place_slots (w : nat) (rows : list (list BingoSlot)) (i : nat)
    (vs : list IBingoSlotConfig) : outcome (list (list BingoSlot)) :=
  match vs with
  | [] => Ok rows
  | v :: vs' =>
      match push_slot rows (createSlot v i w) with
      | Ok rows' => place_slots w rows' (S i) vs'
      | TypeError => TypeError
      end
  end.

Definition init (fuel : nat) (config : IBingoConfig) (st : Store)
    : option (outcome BingoSheet * Store) :=
  let '(w, h) := (sheet_width config, sheet_height config) in
  let rows := replicate h [] in
  let len := w * h in
  match getShuffledListWithLength fuel len st with
  | None => None
  | Some (vs, st') =>
      match place_slots w rows 0 vs with
      | Ok sl => Some (Ok (new_BingoSheet w h sl None), st')
      | TypeError => Some (TypeError, st')
      end
  end.

(** ** Methods of a sheet

    A method runs on [this], may update it, and either returns or
    raises; what it did to [this] before raising stays done. *)
Definition Method (A : Type) : Type := BingoSheet → outcome A * BingoSheet.

Definition ret {A : Type} (a : A) : Method A := λ s, (Ok a, s).

Definition bind {A B : Type} (m : Method A) (f : A → Method B) : Method B :=
  λ s, match m s with
       | (Ok a, s') => f a s'
       | (TypeError, s') => (TypeError, s')
       end.

Definition this : Method BingoSheet := λ s, (Ok s, s).

Definition lift {A : Type} (o : outcome A) : Method A := λ s, (o, s).

(** [xs.map(f)] for an [f] run for its effect only. *)
Fixpoint for_each {A : Type} (f : A → Method unit) (xs : list A) : Method unit :=
  match xs with
  | [] => ret tt
  | a :: xs' => bind (f a) (λ _, for_each f xs')
  end.

(** [this.slots[y][x].flag = true], where [mark] sets the flag. *)
Definition assign_flag (mark : BingoSlot → BingoSlot) (p : Position) : Method unit :=
  λ s, match slots s !! pos_y p with
       | None => (TypeError, s)
       | Some row =>
           match row !! pos_x p with
           | None => (TypeError, s)
           | Some sl =>
               (Ok tt, with_slots s
                  (<[pos_y p := <[pos_x p := mark sl]> row]> (slots s)))
           end
       end.

(** [this.slots[y][x].punched = true]. *)
Definition set_punched : Position → Method unit := assign_flag mark_punched.

(** [this.slots[y][x].bingo = true]. *)
Definition set_bingo : Position → Method unit := assign_flag mark_bingo.

(** [this.save()] hands the sheet to the singleton store, which is
    outside this model, and returns the sheet. *)
Definition save : Method BingoSheet := this.

Definition hit (payload : Payload) : Method (option BingoSlot) :=
  bind this (λ s,
    ret (snd <$> list_find
           (λ slot, strict_eq (value slot) (payload_value payload) = true)
           (flat (slots s)))).

Definition punch (h : BingoSlot) : Method BingoSheet :=
  bind this (λ s,
    let matched :=
      filter (λ slot, strict_eq (value slot) (value h) = true) (flat (slots s)) in
    bind (for_each (λ slot, set_punched (position slot)) matched) (λ _, save)).

Definition markSlotsIfBingo (line : list BingoSlot) : Method unit :=
  for_each (λ slot, set_bingo (position slot)) line.

(** The loop of [getHorizontalBingo] from row [row] on, [n] rows left. *)
Fixpoint horizontal_scan (rows : list (list BingoSlot)) (n row : nat)
    : outcome (list BingoSlot) :=
  match n with
  | 0 => Ok []
  | S n' =>
      match rows !! row with
      | None => TypeError
      | Some r =>
          if forallb punched r then Ok r
          else horizontal_scan rows n' (S row)
      end
  end.

Definition getHorizontalBingo : Method (list BingoSlot) :=
  bind this (λ s, lift (horizontal_scan (slots s) (height s) 0)).

(** [this.slots.map((row) => row[col])]. *)
Definition column (rows : list (list BingoSlot)) (col : nat) : list (option BingoSlot) :=
  map (λ row, row !! col) rows.

(** The loop of [getVerticalBingo] from column [col] on, [n] columns left. *)
Fixpoint vertical_scan (rows : list (list BingoSlot)) (n col : nat)
    : outcome (list BingoSlot) :=
  match n with
  | 0 => Ok []
  | S n' =>
      match every_by punched (column rows col) with
      | TypeError => TypeError
      | Ok true => Ok (defined (column rows col))
      | Ok false => vertical_scan rows n' (S col)
      end
  end.

Definition getVerticalBingo : Method (list BingoSlot) :=
  bind this (λ s, lift (vertical_scan (slots s) (width s) 0)).

(** [this.slots.map((row, i) => row[i])]. *)
Definition backslash (rows : list (list BingoSlot)) : list (option BingoSlot) :=
  imap (λ i row, row !! i) rows.

(** [this.slots.map((row, i) => row[len - i - 1])]; a negative index
    reads [undefined]. *)
Definition slash (len : nat) (rows : list (list BingoSlot)) : list (option BingoSlot) :=
  imap (λ i row, if decide (i < len) then row !! (len - i - 1) else None) rows.

Definition diagonal_scan (w h : nat) (rows : list (list BingoSlot))
    : outcome (list BingoSlot) :=
  if decide (w = h) then
    let len := w `min` h in
    match every_by punched (backslash rows) with
    | TypeError => TypeError
    | Ok b1 =>
        let found := if b1 then [] ++ defined (backslash rows) else [] in
        match every_by punched (slash len rows) with
        | TypeError => TypeError
        | Ok b2 =>
            Ok (if b2 then found ++ defined (slash len rows) else found)
        end
    end
  else Ok [].

Definition getDiagonalBingo : Method (list BingoSlot) :=
  bind this (λ s, lift (diagonal_scan (width s) (height s) (slots s))).

(** [getBingo] returns the slots of the lines found as they were read by
    the scans, and leaves their [bingo] flags set in the sheet. *)
Definition getBingo : Method (list BingoSlot) :=
  bind getHorizontalBingo (λ hs,
  bind getVerticalBingo (λ vs,
  bind getDiagonalBingo (λ ds,
    let found := (([] ++ hs) ++ vs) ++ ds in
    bind (markSlotsIfBingo found) (λ _, ret found)))).

Definition isBingo : Method bool :=
  bind getBingo (λ found, ret (negb (length found =? 0))).

(** ** Operations of a sheet, as data *)

Inductive operation : Type :=
  | OpHit (payload : Payload)
  | OpPunch (h : BingoSlot)
  | OpGetBingo
  | OpIsBingo
  | OpGetHorizontalBingo
  | OpGetVerticalBingo
  | OpGetDiagonalBingo.

(** The sheet an operation leaves behind, whether it returned or raised. *)
Definition after (op : operation) (s : BingoSheet) : BingoSheet :=
  match op with
  | OpHit payload => snd (hit payload s)
  | OpPunch h => snd (punch h s)
  | OpGetBingo => snd (getBingo s)
  | OpIsBingo => snd (isBingo s)
  | OpGetHorizontalBingo => snd (getHorizontalBingo s)
  | OpGetVerticalBingo => snd (getVerticalBingo s)
  | OpGetDiagonalBingo => snd (getDiagonalBingo s)
  end.

Definition after_all (ops : list operation) (s : BingoSheet) : BingoSheet :=
  foldl (λ s' op, after op s') s ops.

(** ** The sheets of the data model *)

(** A sheet as the data model describes it: [height] rows of [width]
    slots, each slot recording the coordinates of the cell it is in. *)
Record sheet_wf (s : BingoSheet) : Prop := {
  wf_rows : length (slots s) = height s;
  wf_cols : ∀ y row, slots s !! y = Some row → length row = width s;
  wf_position : ∀ y x sl,
    cell s y x = Some sl → position sl = {| pos_x := x; pos_y := y |}
}.

(** What the flags of a slot hang on: its value and its coordinates. *)
Definition skeleton (sl : BingoSlot) : Value * Position := (value sl, position sl).

(** A check of [sheet_wf] that computes. *)
Definition check_wf (s : BingoSheet) : bool :=
  (length (slots s) =? height s)
  && forallb (λ row, length row =? width s) (slots s)
  && forallb id
       (imap (λ y row,
                forallb id
                  (imap (λ x sl,
                           bool_decide
                             (position sl = {| pos_x := x; pos_y := y |}))
                        row))
             (slots s)).

Definition skeleton_grid (s : BingoSheet) : list (list (Value * Position)) :=
  (λ row : list BingoSlot, skeleton <$> row) <$> slots s.

(** Two sheets that differ at most in the flags of their slots. *)
Definition same_frame (s s' : BingoSheet) : Prop :=
  width s' = width s ∧ height s' = height s
  ∧ sheet_length s' = sheet_length s ∧ initialized s' = initialized s
  ∧ skeleton_grid s' = skeleton_grid s.

(** The slot [sl] of cell [(x, y)] once the cells at the positions [ps]
    have had a flag set by [mark]. *)
Definition marked_at (mark : BingoSlot → BingoSlot) (ps : list Position)
    (y x : nat) (sl : BingoSlot) : BingoSlot :=
  if decide ({| pos_x := x; pos_y := y |} ∈ ps) then mark sl else sl.

(** The lines of a sheet, in the words of the specification: the slots
    of row [k], of column [k], of the main diagonal [slots[i][i]] and of
    the anti-diagonal [slots[i][len - 1 - i]]. *)
Definition row_slots (s : BingoSheet) (k : nat) : list BingoSlot :=
  defined ((λ x, cell s k x) <$> seq 0 (width s)).

Definition column_slots (s : BingoSheet) (k : nat) : list BingoSlot :=
  defined ((λ y, cell s y k) <$> seq 0 (height s)).

Definition main_diagonal (s : BingoSheet) : list BingoSlot :=
  defined ((λ i, cell s i i) <$> seq 0 (height s)).

Definition anti_diagonal (s : BingoSheet) : list BingoSlot :=
  defined ((λ i, cell s i (height s - 1 - i)) <$> seq 0 (height s)).

(** Every slot of the line has [punched == true]. *)
Definition fully_punched (l : list BingoSlot) : bool := forallb punched l.

(** [r] is the first of the lines [line 0 .. line (n - 1)] that is fully
    punched, or empty when none is. *)
Definition first_complete (line : nat → list BingoSlot) (n : nat)
    (r : list BingoSlot) : Prop :=
  (∃ k, k < n ∧ fully_punched (line k) = true
        ∧ (∀ j, j < k → fully_punched (line j) = false) ∧ r = line k)
  ∨ ((∀ k, k < n → fully_punched (line k) = false) ∧ r = []).

(** A flag that is set in [sl] is set in [sl']. *)
Definition flags_kept (sl sl' : BingoSlot) : Prop :=
  (punched sl = true → punched sl' = true)
  ∧ (bingo sl = true → bingo sl' = true).

(** The slots of the grid whose value is strictly equal to [v], in
    row-major order. *)
Definition matching (v : Value) (s : BingoSheet) : list BingoSlot :=
  filter (λ slot, strict_eq (value slot) v = true) (flat (slots s)).

(** The slot [sl] once [v] has been punched. *)
Definition punched_by (v : Value) (sl : BingoSlot) : BingoSlot :=
  if strict_eq (value sl) v then mark_punched sl else sl.

(** How many slots of a list were created from the catalog entry [e]. *)
Definition occurrences `{EqDecision Value} (e : IBingoSlotConfig)
    (sls : list BingoSlot) : nat :=
  count_of e (variation_of <$> sls).

(** [dest] is made of whole shuffles of the catalog [arr]. *)
Definition in_blocks (arr dest : list IBingoSlotConfig) : Prop :=
  ∃ bs : list (list IBingoSlotConfig),
    dest = mjoin bs ∧ Forall (λ b, b ≡ₚ arr) bs.

(** The grid that holds the slots [sls] row by row: [h] rows, row [y]
    made of the [w] slots from index [y * w] on. *)
Fixpoint chunks (w h : nat) (sls : list BingoSlot) : list (list BingoSlot) :=
  match h with
  | 0 => []
  | S h' => take w sls :: chunks w h' (drop w sls)
  end.
End Model.

Arguments IBingoSlotConfig Value : clear implicits.
Arguments BingoSlot Value : clear implicits.
Arguments Payload Value : clear implicits.
Arguments Store Value : clear implicits.
Arguments BingoSheet Value : clear implicits.
Arguments Method Value A : clear implicits.
Arguments operation Value : clear implicits.

(** ** Sheets and a catalog to run the definitions on *)

Module Demo.
Definition slot (v x y : nat) (p : bool) : BingoSlot nat :=
  {| value := v; label := EmptyString; description := EmptyString; imageURL := EmptyString;
     position := {| pos_x := x; pos_y := y |}; punched := p; bingo := false |}.

(** A 3 x 3 sheet. Both diagonals are punched, no row and no column is;
    the value 2 is on two cells, neither of them punched. *)
Definition square : BingoSheet nat :=
  {| width := 3; height := 3;
     slots := [ [slot 1 0 0 true; slot 2 1 0 false; slot 3 2 0 true];
                [slot 4 0 1 false; slot 5 1 1 true; slot 6 2 1 false];
                [slot 7 0 2 true; slot 2 1 2 false; slot 9 2 2 true] ];
     sheet_length := 9; initialized := 0 |}.

(** A 4 x 3 sheet with every slot punched. *)
Definition wide : BingoSheet nat :=
  {| width := 4; height := 3;
     slots := [ [slot 1 0 0 true; slot 2 1 0 true; slot 3 2 0 true; slot 4 3 0 true];
                [slot 5 0 1 true; slot 6 1 1 true; slot 7 2 1 true; slot 8 3 1 true];
                [slot 9 0 2 true; slot 10 1 2 true; slot 11 2 2 true; slot 12 3 2 true] ];
     sheet_length := 12; initialized := 0 |}.

Definition entry (v : nat) (l : string) : IBingoSlotConfig nat :=
  {| cfg_value := v; cfg_label := l; cfg_description := EmptyString; cfg_imageURL := EmptyString |}.

Definition catalog : list (IBingoSlotConfig nat) := [entry 1 "A"; entry 2 "B"].

Definition store : Store nat := {| variations := catalog; draws := 0 |}.

Definition empty_store : Store nat := {| variations := []; draws := 0 |}.

Definition config : IBingoConfig := {| sheet_width := 3; sheet_height := 2 |}.

(** A source of draws: the [k]-th draw is [k]. *)
Definition counting : nat → nat := λ k, k.
End Demo.

(** ** Further vocabulary for the properties *)

Section Vocabulary.
Context {Value : Type}.

(** The sheet with [g] applied to every slot of its grid. *)
Definition map_slots (g : BingoSlot Value → BingoSlot Value)
    (s : BingoSheet Value) : BingoSheet Value :=
  with_slots s ((λ row : list (BingoSlot Value), g <$> row) <$> slots s).

(** The slot [sl] once the slots [found] have had their [bingo] flag set
    through their positions. *)
Definition flagged (found : list (BingoSlot Value)) (sl : BingoSlot Value)
    : BingoSlot Value :=
  if decide (position sl ∈ position <$> found) then mark_bingo sl else sl.

(** The position [p] names a cell of the grid. *)
Definition on_grid (s : BingoSheet Value) (p : Position) : Prop :=
  is_Some (cell s (pos_y p) (pos_x p)).

(** Some row, some column or, on a square sheet, one of the two diagonals
    is fully punched. *)
Definition has_complete_line (s : BingoSheet Value) : Prop :=
  (∃ k, k < height s ∧ fully_punched (row_slots s k) = true)
  ∨ (∃ k, k < width s ∧ fully_punched (column_slots s k) = true)
  ∨ (width s = height s
     ∧ (fully_punched (main_diagonal s) = true
        ∨ fully_punched (anti_diagonal s) = true)).

(** No slot of the grid has a flag set. *)
Definition untouched (s : BingoSheet Value) : Prop :=
  ∀ sl, sl ∈ flat (slots s) → punched sl = false ∧ bingo sl = false.
End Vocabulary.

Section Outcomes.
Context {Value : Type}.
Variable strict_eq : Value → Value → bool.

(** The operation [op], run on [s], ends by raising. *)
Definition raises (op : operation Value) (s : BingoSheet Value) : Prop :=
  match op with
  | OpHit payload => (hit strict_eq payload s).1 = TypeError
  | OpPunch h => (punch strict_eq h s).1 = TypeError
  | OpGetBingo => (getBingo s).1 = TypeError
  | OpIsBingo => (isBingo s).1 = TypeError
  | OpGetHorizontalBingo => (getHorizontalBingo s).1 = TypeError
  | OpGetVerticalBingo => (getVerticalBingo s).1 = TypeError
  | OpGetDiagonalBingo => (getDiagonalBingo s).1 = TypeError
  end.
End Outcomes.

Module Malformed.
(** A sheet that says it has three rows and holds two, neither of them
    fully punched. *)
Definition short : BingoSheet nat :=
  {| width := 2; height := 3;
     slots := [ [Demo.slot 1 0 0 true; Demo.slot 2 1 0 false];
                [Demo.slot 3 0 1 false; Demo.slot 4 1 1 true] ];
     sheet_length := 6; initialized := 0 |}.

(** A sheet whose second slot records a position that is off the grid. *)
Definition stray : BingoSheet nat :=
  {| width := 2; height := 1;
     slots := [ [Demo.slot 1 0 0 false; Demo.slot 2 7 7 false] ];
     sheet_length := 2; initialized := 0 |}.
End Malformed.

Module Setup.
(** Two slots in a row: as many as [Demo.catalog] has entries. *)
Definition pair : IBingoConfig := {| sheet_width := 2; sheet_height := 1 |}.

(** Three rows of no slot. *)
Definition hollow : IBingoConfig := {| sheet_width := 0; sheet_height := 3 |}.
End Setup.

(** * Properties of the shuffle *)

Section ShuffleFacts.
Variable random : nat → nat.
Context {T : Type}.
Implicit Types arr : list T.

Lemma swap_Permutation arr i j : swap arr i j ≡ₚ arr.
Proof.
  unfold swap.
  destruct (arr !! i) as [ai|] eqn:Hi; [|done].
  destruct (arr !! j) as [aj|] eqn:Hj; [|done].
  by apply Permutation_insert_swap.
Qed.

Lemma arrayShuffle_loop_Permutation i :
  ∀ arr k, (arrayShuffle_loop random i arr k).1 ≡ₚ arr.
Proof.
  induction i as [|i IH]; intros arr k; simpl; [done|].
  rewrite IH. apply swap_Permutation.
Qed.

Lemma arrayShuffle_loop_draws i :
  ∀ arr k, (arrayShuffle_loop random i arr k).2 = k + i.
Proof.
  induction i as [|i IH]; intros arr k; simpl; [lia|].
  rewrite IH. lia.
Qed.

Lemma arrayShuffle_Permutation arr k : (arrayShuffle random arr k).1 ≡ₚ arr.
Proof. apply arrayShuffle_loop_Permutation. Qed.

Lemma arrayShuffle_length arr k :
  length (arrayShuffle random arr k).1 = length arr.
Proof. by rewrite arrayShuffle_Permutation. Qed.

Lemma arrayShuffle_nil k : arrayShuffle random (@nil T) k = ([], k).
Proof. reflexivity. Qed.
End ShuffleFacts.

(** * Properties of generation *)

Section GenerationFacts.
Context {Value : Type}.
Variable random : nat → nat.
Variable now : nat.

Local Abbreviation Catalog := (list (IBingoSlotConfig Value)).
Local Abbreviation fill_loop := (fill_loop random).
Local Abbreviation getShuffledListWithLength := (getShuffledListWithLength random).
Local Abbreviation init := (init random now).

Lemma in_blocks_nil (arr : Catalog) : in_blocks arr [].
Proof. by exists []. Qed.

Lemma in_blocks_snoc (arr dest b : Catalog) :
  in_blocks arr dest → b ≡ₚ arr → in_blocks arr (dest ++ b).
Proof.
  intros (bs & -> & Hbs) Hb. exists (bs ++ [b]). split.
  - rewrite join_app. simpl. by rewrite app_nil_r.
  - apply Forall_app. split; [done|]. by constructor.
Qed.

(** With an empty catalog the loop makes no progress: each round appends
    nothing, so no amount of fuel lets it leave. *)
Lemma fill_loop_empty_catalog fuel :
  ∀ dest len (st : Store Value),
    variations st = [] → length dest < len → fill_loop fuel dest len st = None.
Proof.
  induction fuel as [|fuel IH]; intros dest len st Hnil Hlt; simpl.
  - by rewrite decide_True.
  - rewrite decide_True by done. rewrite Hnil, arrayShuffle_nil.
    apply IH; simpl; [done|]. by rewrite app_nil_r.
Qed.

(** With a catalog that is not empty each round appends at least one
    entry, so [len] rounds are enough. *)
Lemma fill_loop_returns fuel :
  ∀ dest len (st : Store Value),
    variations st ≠ [] → len ≤ length dest + fuel →
    is_Some (fill_loop fuel dest len st).
Proof.
  induction fuel as [|fuel IH]; intros dest len st Hne Hfuel; simpl.
  - rewrite decide_False by lia. by eexists.
  - destruct (decide (length dest < len)); [|by eexists].
    pose proof (arrayShuffle_length random (variations st) (draws st)) as Hlen.
    destruct (arrayShuffle random (variations st) (draws st)) as [arr k].
    simpl in Hlen. apply IH; simpl.
    + intros ->. destruct (variations st); [done|]. simpl in Hlen. lia.
    + rewrite length_app. destruct arr; simpl in *.
      * destruct (variations st); [done|]. simpl in Hlen. lia.
      * lia.
Qed.

Lemma fill_loop_spec fuel (arr0 : Catalog) :
  ∀ dest len (st : Store Value) dest' st',
    fill_loop fuel dest len st = Some (dest', st') →
    in_blocks arr0 dest → variations st ≡ₚ arr0 →
    in_blocks arr0 dest' ∧ variations st' ≡ₚ arr0 ∧ len ≤ length dest'
    ∧ draws st ≤ draws st'.
Proof.
  induction fuel as [|fuel IH]; intros dest len st dest' st' Hrun Hb Hp;
    simpl in Hrun.
  - destruct (decide (length dest < len)); [done|]. simplify_eq.
    repeat split; [done..|lia|lia].
  - destruct (decide (length dest < len)); [|simplify_eq; repeat split; [done..|lia|lia]].
    pose proof (arrayShuffle_Permutation random (variations st) (draws st)) as Hperm.
    pose proof (arrayShuffle_loop_draws random
                  (length (variations st) - 1) (variations st) (draws st)) as Hk.
    fold (arrayShuffle random (variations st) (draws st)) in Hk.
    destruct (arrayShuffle random (variations st) (draws st)) as [arr k].
    simpl in Hperm, Hk.
    apply IH in Hrun as (? & ? & ? & Hd); simpl in *.
    + repeat split; [done..|lia].
    + apply in_blocks_snoc; [done|]. by rewrite Hperm.
    + by rewrite Hperm.
Qed.
End GenerationFacts.

Section PlacementFacts.
Context {Value : Type}.
Variable random : nat → nat.
Variable now : nat.

Local Abbreviation Slot := (BingoSlot Value).
Local Abbreviation Catalog := (list (IBingoSlotConfig Value)).

Lemma chunks_length w h (sls : list Slot) : length (chunks w h sls) = h.
Proof. revert sls. induction h as [|h IH]; intros sls; simpl; [done|]. by rewrite IH. Qed.

Lemma chunks_lookup w h :
  ∀ (sls : list Slot) y,
    y < h → chunks w h sls !! y = Some (take w (drop (y * w) sls)).
Proof.
  induction h as [|h IH]; intros sls y Hy; [lia|].
  destruct y as [|y]; simpl; [done|].
  rewrite IH by lia. by rewrite drop_drop.
Qed.

Lemma chunks_lookup_ge w h (sls : list Slot) y :
  h ≤ y → chunks w h sls !! y = None.
Proof. intros. apply lookup_ge_None. by rewrite chunks_length. Qed.

Lemma chunks_flat w h :
  ∀ sls : list Slot, flat (chunks w h sls) = take (w * h) sls.
Proof.
  unfold flat. induction h as [|h IH]; intros sls; simpl.
  - by rewrite Nat.mul_0_r.
  - rewrite IH, take_take_drop. f_equal. lia.
Qed.

Lemma chunks_nil w h : chunks w h (@nil Slot) = replicate h [].
Proof.
  induction h as [|h IH]; simpl; [done|].
  by rewrite take_nil, drop_nil, IH.
Qed.

(** Appending a slot to the list laid out in a grid appends it to the
    row its index falls in. *)
Lemma chunks_snoc w h (sls : list Slot) (sl : Slot) :
  0 < w → length sls < w * h →
  let y := length sls / w in
  ∃ row, chunks w h sls !! y = Some row
         ∧ chunks w h (sls ++ [sl]) = <[y := row ++ [sl]]> (chunks w h sls).
Proof.
  intros Hw Hlen y.
  assert (Hy : y < h) by (apply Nat.Div0.div_lt_upper_bound; lia).
  pose proof (Nat.div_mod_eq (length sls) w) as Hdm.
  pose proof (Nat.mod_upper_bound (length sls) w ltac:(lia)) as Hm.
  fold y in Hdm.
  exists (take w (drop (y * w) sls)). split; [by apply chunks_lookup|].
  apply list_eq. intros y'.
  destruct (decide (y' < h)) as [Hy'|Hy'].
  2:{ rewrite chunks_lookup_ge by lia.
      symmetry. apply lookup_ge_None. rewrite length_insert, chunks_length. lia. }
  rewrite chunks_lookup by done.
  destruct (decide (y' = y)) as [->|Hne].
  - rewrite list_lookup_insert_eq by (rewrite chunks_length; lia).
    f_equal. rewrite drop_app_le by lia.
    rewrite !take_ge; [done| |].
    + rewrite length_drop. lia.
    + rewrite length_app, length_drop. simpl. lia.
  - rewrite list_lookup_insert_ne by done.
    rewrite chunks_lookup by done. f_equal.
    destruct (decide (y' < y)) as [Hlt|Hgt].
    + assert (y' * w + w ≤ y * w) by nia.
      rewrite drop_app_le by lia.
      apply take_app_le. rewrite length_drop. lia.
    + assert (y * w + w ≤ y' * w) by nia.
      rewrite !drop_ge; [done| |]; [lia|].
      rewrite length_app. simpl. lia.
Qed.

(** The callback of [init] lays the shuffled list out row by row. *)
Lemma place_slots_spec w h :
  ∀ (vs : Catalog) (placed : list Slot),
    length placed + length vs ≤ w * h →
    place_slots w (chunks w h placed) (length placed) vs
    = Ok (chunks w h (placed ++ imap (λ j v, createSlot v (length placed + j) w) vs)).
Proof.
  induction vs as [|v vs IH]; intros placed Hlen; simpl.
  - by rewrite app_nil_r.
  - simpl in Hlen.
    assert (Hw : 0 < w) by (destruct w; lia).
    destruct (chunks_snoc w h placed (createSlot v (length placed) w))
      as (row & Hrow & Hsnoc); [done|lia|].
    unfold push_slot. simpl. rewrite Hrow, <-Hsnoc.
    specialize (IH (placed ++ [createSlot v (length placed) w])).
    rewrite length_app in IH. simpl in IH.
    replace (length placed + 1) with (S (length placed)) in IH by lia.
    rewrite IH by lia. f_equal. rewrite <-app_assoc. simpl.
    rewrite Nat.add_0_r. do 3 f_equal.
    apply imap_ext. intros j ? _. simpl. f_equal. lia.
Qed.
End PlacementFacts.

Section CoverageFacts.
Context {T : Type} `{EqDecision T}.
Implicit Types arr : list T.

Lemma count_of_app (e : T) l1 l2 : count_of e (l1 ++ l2) = count_of e l1 + count_of e l2.
Proof. unfold count_of. by rewrite filter_app, length_app. Qed.

Lemma count_of_Permutation (e : T) l1 l2 : l1 ≡ₚ l2 → count_of e l1 = count_of e l2.
Proof. unfold count_of. by intros ->. Qed.

Lemma count_of_elem (e : T) l : e ∈ l → 1 ≤ count_of e l.
Proof.
  intros Hin. unfold count_of.
  assert (Hf : e ∈ filter (λ a, a = e) l) by (by apply list_elem_of_filter).
  destruct (filter (λ a, a = e) l); [by apply elem_of_nil in Hf|]. simpl. lia.
Qed.

(** The first [len] entries of a sequence of shuffles of [arr] hold
    [len / length arr] whole shuffles. *)
Lemma blocks_cover arr (e : T) :
  ∀ (bs : list (list T)) len,
    Forall (λ b, b ≡ₚ arr) bs → len ≤ length (mjoin bs) →
    len / length arr * count_of e arr ≤ count_of e (take len (mjoin bs)).
Proof.
  induction bs as [|b bs IH]; intros len Hbs Hlen; simpl in *.
  - assert (len = 0) as -> by lia. rewrite Nat.Div0.div_0_l. lia.
  - apply Forall_cons in Hbs as [Hb Hbs].
    pose proof (Permutation_length Hb) as Hc.
    destruct (decide (len < length arr)) as [Hsmall|Hbig].
    { rewrite Nat.div_small by done. lia. }
    destruct (decide (length arr = 0)) as [Hz|Hnz].
    { rewrite Hz. simpl. lia. }
    rewrite length_app in Hlen.
    rewrite take_app_ge by lia.
    rewrite count_of_app, (count_of_Permutation e b arr) by done.
    specialize (IH (len - length b) Hbs ltac:(lia)).
    replace len with ((len - length b) + 1 * length arr) at 1 by lia.
    rewrite Nat.div_add by done. lia.
Qed.
End CoverageFacts.

Section InitFacts.
Context {Value : Type}.
Variable random : nat → nat.
Variable now : nat.

Local Abbreviation Slot := (BingoSlot Value).
Local Abbreviation Catalog := (list (IBingoSlotConfig Value)).

(** The slots [init] creates from the shuffled list [vs]. *)
Local Abbreviation created w vs := (imap (λ i v, createSlot v i w) (vs : Catalog)).

Lemma created_variations w (vs : Catalog) : variation_of <$> created w vs = vs.
Proof.
  apply list_eq. intros i.
  rewrite list_lookup_fmap, list_lookup_imap.
  destruct (vs !! i) as [[]|]; reflexivity.
Qed.

Lemma createSlot_position (v : IBingoSlotConfig Value) x y w :
  x < w → position (createSlot v (y * w + x) w) = {| pos_x := x; pos_y := y |}.
Proof.
  intros Hx. unfold createSlot. simpl. f_equal.
  - rewrite Nat.add_comm, Nat.Div0.mod_add. by apply Nat.mod_small.
  - rewrite Nat.div_add_l by lia. rewrite Nat.div_small by done. lia.
Qed.

Lemma chunks_cell w h (sls : list Slot) date y x :
  y < h → x < w →
  cell (new_BingoSheet now w h (chunks w h sls) date) y x = sls !! (y * w + x).
Proof.
  intros Hy Hx. unfold cell. simpl. rewrite chunks_lookup by done.
  rewrite lookup_take_lt by done. by rewrite lookup_drop.
Qed.

Lemma chunks_cell_Some w h (sls : list Slot) date y x sl :
  cell (new_BingoSheet now w h (chunks w h sls) date) y x = Some sl →
  y < h ∧ x < w ∧ sls !! (y * w + x) = Some sl.
Proof.
  unfold cell. simpl. intros Hc.
  destruct (decide (y < h)) as [Hy|Hy]; [|by rewrite chunks_lookup_ge in Hc by lia].
  rewrite chunks_lookup in Hc by done.
  apply lookup_take_Some in Hc as [Hc Hx]. by rewrite lookup_drop in Hc.
Qed.

Lemma chunks_wf w h (vs : Catalog) date :
  length vs = w * h →
  sheet_wf (new_BingoSheet now w h (chunks w h (created w vs)) date).
Proof.
  intros Hlen. split; simpl.
  - apply chunks_length.
  - intros y row Hrow.
    destruct (decide (y < h)) as [Hy|Hy]; [|by rewrite chunks_lookup_ge in Hrow by lia].
    rewrite chunks_lookup in Hrow by done. simplify_eq.
    rewrite length_take, length_drop, length_imap. nia.
  - intros y x sl (Hy & Hx & Hsl)%chunks_cell_Some.
    rewrite list_lookup_imap in Hsl.
    destruct (vs !! (y * w + x)) as [v|]; [|done].
    injection Hsl as <-. by apply createSlot_position.
Qed.

(** Whenever generation ends, it ends by returning a sheet, and the sheet
    holds the truncated sequence of shuffles row by row. *)
Lemma init_ends fuel config (st : Store Value) r st' :
  let w := sheet_width config in
  let h := sheet_height config in
  init random now fuel config st = Some (r, st') →
  ∃ dest vs : Catalog,
    getShuffledListWithLength random fuel (w * h) st = Some (vs, st')
    ∧ vs = take (w * h) dest ∧ w * h ≤ length dest
    ∧ in_blocks (variations st) dest
    ∧ variations st' ≡ₚ variations st
    ∧ r = Ok (new_BingoSheet now w h (chunks w h (created w vs)) None).
Proof.
  intros w h. unfold init, getShuffledListWithLength. fold w h. simpl.
  destruct (fill_loop random fuel [] (w * h) st) as [[dest st1]|] eqn:Hrun;
    [|done].
  destruct (fill_loop_spec random fuel (variations st) _ _ _ _ _ Hrun)
    as (Hb & Hp & Hlen & _); [apply in_blocks_nil|done|].
  rewrite <-(chunks_nil w h).
  pose proof (place_slots_spec w h (take (w * h) dest) []) as Hplace.
  simpl in Hplace. rewrite Hplace by (rewrite length_take; lia).
  intros ?; simplify_eq. by exists dest, (take (w * h) dest).
Qed.

(** Generation from a catalog that is not empty ends. *)
Lemma init_total fuel config (st : Store Value) :
  variations st ≠ [] → sheet_width config * sheet_height config ≤ fuel →
  is_Some (init random now fuel config st).
Proof.
  intros Hne Hfuel. unfold init, getShuffledListWithLength.
  destruct (fill_loop_returns random fuel []
              (sheet_width config * sheet_height config) st Hne)
    as [[dest st'] ->]; [simpl; lia|].
  by destruct (place_slots _ _ _ _).
Qed.

Lemma init_returns fuel config (st : Store Value) :
  let w := sheet_width config in
  let h := sheet_height config in
  variations st ≠ [] → w * h ≤ fuel →
  ∃ (dest vs : Catalog) (st' : Store Value),
    getShuffledListWithLength random fuel (w * h) st = Some (vs, st')
    ∧ vs = take (w * h) dest ∧ w * h ≤ length dest
    ∧ in_blocks (variations st) dest
    ∧ variations st' ≡ₚ variations st
    ∧ init random now fuel config st
      = Some (Ok (new_BingoSheet now w h (chunks w h (created w vs)) None), st').
Proof.
  intros w h Hne Hfuel.
  destruct (init_total fuel config st Hne Hfuel) as [[r st'] Hinit].
  destruct (init_ends fuel config st r st' Hinit)
    as (dest & vs & ? & ? & ? & ? & ? & ->).
  by exists dest, vs, st'.
Qed.
End InitFacts.

(** * Generation: what the specification states *)

Section GenerationClaims.
Context {Value : Type}.
Variable random : nat → nat.
Variable now : nat.

Local Abbreviation Catalog := (list (IBingoSlotConfig Value)).

(** C1 (the code departs from it). The specification wants generation
    from an empty catalog to stop with an error. It does not stop: with
    positive dimensions and an empty catalog the loop that fills the
    shuffled list is still running whatever fuel it is given, so [init]
    neither returns a sheet nor raises. *)
Theorem init_empty_catalog_never_returns fuel config (st : Store Value) :
  0 < sheet_width config → 0 < sheet_height config → variations st = [] →
  init random now fuel config st = None.
Proof.
  intros Hw Hh Hnil. unfold init, getShuffledListWithLength.
  rewrite (fill_loop_empty_catalog random fuel [] _ st Hnil); [done|].
  simpl. nia.
Qed.

(** C2. From a catalog of [c >= 1] entries, whatever the random draws,
    generation returns a sheet of exactly [L = width * height] slots, and
    every catalog entry occurs at least [L / c] times among them. *)
Theorem generation_covers_catalog `{EqDecision Value}
    fuel config (st : Store Value) :
  1 ≤ length (variations st) →
  sheet_width config * sheet_height config ≤ fuel →
  ∃ s st',
    init random now fuel config st = Some (Ok s, st')
    ∧ length (flat (slots s)) = sheet_width config * sheet_height config
    ∧ ∀ e, e ∈ variations st →
        sheet_width config * sheet_height config / length (variations st)
        ≤ occurrences e (flat (slots s)).
Proof.
  intros Hc Hfuel.
  destruct (init_returns random now fuel config st)
    as (dest & vs & st' & _ & Hvs & Hlen & (bs & Hdest & Hbs) & _ & Hinit);
    [intros Hnil; rewrite Hnil in Hc; simpl in Hc; lia|done|].
  set (w := sheet_width config) in *. set (h := sheet_height config) in *.
  assert (Hl : length vs = w * h) by (rewrite Hvs, length_take; lia).
  eexists _, st'. split; [exact Hinit|]. simpl.
  rewrite chunks_flat, take_ge by (rewrite length_imap; lia).
  split; [rewrite length_imap; exact Hl|].
  intros e He. unfold occurrences. rewrite created_variations.
  pose proof (blocks_cover (variations st) e bs (w * h) Hbs) as Hcover.
  rewrite <-Hdest, <-Hvs in Hcover. specialize (Hcover Hlen).
  pose proof (count_of_elem e _ He). nia.
Qed.

(** C8. In every sheet generation returns, the slot stored at
    [slots[y][x]] has position [(x, y)], for every [x < width] and
    [y < height], and the [i]-th entry of the truncated sequence of
    shuffles has become the slot at [(i mod width, i / width)]; from a
    catalog that is not empty generation does return a sheet. *)
Theorem generated_slots_know_their_position fuel config (st : Store Value) :
  (variations st ≠ [] → sheet_width config * sheet_height config ≤ fuel →
   ∃ s st', init random now fuel config st = Some (Ok s, st'))
  ∧ (∀ s st',
       init random now fuel config st = Some (Ok s, st') →
       sheet_wf s
       ∧ (∀ x y, x < sheet_width config → y < sheet_height config →
            ∃ sl, cell s y x = Some sl
                  ∧ position sl = {| pos_x := x; pos_y := y |})
       ∧ ∃ vs,
           getShuffledListWithLength random fuel
             (sheet_width config * sheet_height config) st = Some (vs, st')
           ∧ length vs = sheet_width config * sheet_height config
           ∧ ∀ i v, vs !! i = Some v →
               cell s (i / sheet_width config) (i mod sheet_width config)
               = Some (createSlot v i (sheet_width config))
               ∧ position (createSlot v i (sheet_width config))
                 = {| pos_x := i mod sheet_width config;
                      pos_y := i / sheet_width config |}).
Proof.
  split.
  - intros Hne Hfuel.
    destruct (init_returns random now fuel config st Hne Hfuel)
      as (dest & vs & st' & _ & _ & _ & _ & _ & Hinit). eauto.
  - intros s st' Hinit.
    destruct (init_ends random now fuel config st _ _ Hinit)
      as (dest & vs & Hget & Hvs & Hlen & _ & _ & Hs).
    injection Hs as Hs. subst s.
    set (w := sheet_width config) in *. set (h := sheet_height config) in *.
    assert (Hl : length vs = w * h) by (rewrite Hvs, length_take; lia).
    split; [by apply chunks_wf|]. split.
    + intros x y Hx Hy. rewrite chunks_cell by done.
      rewrite list_lookup_imap.
      destruct (lookup_lt_is_Some_2 vs (y * w + x)) as [v Hv]; [nia|].
      rewrite Hv. simpl. eexists. split; [done|]. by apply createSlot_position.
    + exists vs. split; [done|]. split; [done|].
      intros i v Hv. split; [|done].
      pose proof (lookup_lt_Some _ _ _ Hv) as Hi.
      assert (Hw : 0 < w) by (destruct w; lia).
      pose proof (Nat.div_mod_eq i w) as Hdm.
      pose proof (Nat.mod_upper_bound i w ltac:(lia)) as Hm.
      rewrite chunks_cell; [| apply Nat.Div0.div_lt_upper_bound; lia | done].
      replace (i / w * w + i mod w) with i by lia.
      rewrite list_lookup_imap, Hv. done.
Qed.

(** C10. Generation works on the caller's catalog array itself: whenever
    [init] ends, the array holds the same entries as before, reordered
    by every round of the loop; from a catalog that is not empty it does
    end, and there are runs after which the order of the array is not
    the one the caller passed in. *)
Theorem init_shuffles_the_catalog_in_place fuel config (st : Store Value) :
  (variations st ≠ [] → sheet_width config * sheet_height config ≤ fuel →
   ∃ s st', init random now fuel config st = Some (Ok s, st'))
  ∧ (∀ r st', init random now fuel config st = Some (r, st') →
              variations st' ≡ₚ variations st)
  ∧ (∃ s st',
       init Demo.counting now 3 {| sheet_width := 3; sheet_height := 1 |}
         Demo.store = Some (Ok s, st')
       ∧ variations Demo.store = [Demo.entry 1 "A"; Demo.entry 2 "B"]
       ∧ variations st' = [Demo.entry 2 "B"; Demo.entry 1 "A"]
       ∧ variation_of <$> flat (slots s)
         = [Demo.entry 2 "B"; Demo.entry 1 "A"; Demo.entry 2 "B"]).
Proof.
  split; [|split].
  - intros Hne Hfuel.
    destruct (init_returns random now fuel config st Hne Hfuel)
      as (dest & vs & st' & _ & _ & _ & _ & _ & Hinit). eauto.
  - intros r st' Hinit.
    by destruct (init_ends random now fuel config st _ _ Hinit)
      as (dest & vs & _ & _ & _ & _ & Hperm & _).
  - eexists _, _. split; [reflexivity|]. done.
Qed.
End GenerationClaims.

(** * Properties of the methods of a sheet *)

Section FlagFacts.
Context {Value : Type}.

Local Abbreviation Slot := (BingoSlot Value).
Local Abbreviation Sheet := (BingoSheet Value).

Implicit Types (s : Sheet) (sl : Slot) (p : Position).

Lemma with_slots_id s : with_slots s (slots s) = s.
Proof. by destruct s. Qed.

Lemma mark_punched_idemp sl : mark_punched (mark_punched sl) = mark_punched sl.
Proof. done. Qed.

Lemma mark_bingo_idemp sl : mark_bingo (mark_bingo sl) = mark_bingo sl.
Proof. done. Qed.

Lemma mark_punched_skeleton sl : skeleton (mark_punched sl) = skeleton sl.
Proof. done. Qed.

Lemma mark_bingo_skeleton sl : skeleton (mark_bingo sl) = skeleton sl.
Proof. done. Qed.

Lemma cell_Some s y x sl :
  cell s y x = Some sl ↔ ∃ row, slots s !! y = Some row ∧ row !! x = Some sl.
Proof.
  unfold cell. split.
  - destruct (slots s !! y) as [row|]; [|done]. by exists row.
  - by intros (row & -> & ->).
Qed.

Lemma elem_of_flat s sl :
  sl ∈ flat (slots s) ↔ ∃ y x, cell s y x = Some sl.
Proof.
  unfold flat. rewrite list_elem_of_join. split.
  - intros (row & [x Hx]%list_elem_of_lookup & [y Hy]%list_elem_of_lookup).
    exists y, x. apply cell_Some. eauto.
  - intros (y & x & (row & Hy & Hx)%cell_Some).
    exists row. split; eapply list_elem_of_lookup_2; eauto.
Qed.

(** One assignment [this.slots[y][x].flag = true]. *)
Section Assign.
Variable mark : Slot → Slot.
Hypothesis mark_idemp : ∀ sl, mark (mark sl) = mark sl.
Hypothesis mark_skeleton : ∀ sl, skeleton (mark sl) = skeleton sl.

Lemma assign_flag_raises p s s' :
  assign_flag mark p s = (TypeError, s') →
  s' = s ∧ cell s (pos_y p) (pos_x p) = None.
Proof.
  unfold assign_flag, cell. destruct (slots s !! pos_y p) as [row|].
  - destruct (row !! pos_x p); intros; by simplify_eq.
  - intros; by simplify_eq.
Qed.

Lemma assign_flag_returns p s s' :
  assign_flag mark p s = (Ok tt, s') →
  ∃ row sl,
    slots s !! pos_y p = Some row ∧ row !! pos_x p = Some sl
    ∧ s' = with_slots s (<[pos_y p := <[pos_x p := mark sl]> row]> (slots s)).
Proof.
  unfold assign_flag. destruct (slots s !! pos_y p) as [row|] eqn:Hrow; [|done].
  destruct (row !! pos_x p) as [sl|] eqn:Hsl; [|done].
  intros; simplify_eq. by exists row, sl.
Qed.

Lemma assign_flag_cell p s s' y x :
  assign_flag mark p s = (Ok tt, s') →
  cell s' y x = marked_at mark [p] y x <$> cell s y x.
Proof.
  intros (row & sl & Hrow & Hsl & ->)%assign_flag_returns.
  unfold cell, marked_at. simpl.
  destruct p as [x0 y0]; simpl in *.
  destruct (decide (y = y0)) as [->|Hy].
  - rewrite list_lookup_insert_eq by (by eapply lookup_lt_Some).
    rewrite Hrow. destruct (decide (x = x0)) as [->|Hx].
    + rewrite list_lookup_insert_eq by (by eapply lookup_lt_Some).
      rewrite Hsl. simpl. rewrite decide_True; [done|]. apply list_elem_of_singleton. done.
    + rewrite list_lookup_insert_ne by done.
      destruct (row !! x); simpl; [|done].
      rewrite decide_False; [done|].
      intros ?%list_elem_of_singleton. congruence.
  - rewrite list_lookup_insert_ne by done.
    destruct (slots s !! y) as [r|]; [|done].
    destruct (r !! x); simpl; [|done].
    rewrite decide_False; [done|].
    intros ?%list_elem_of_singleton. congruence.
Qed.

(** An assignment changes neither the dimensions of the sheet nor the
    value and position of any slot. *)
Lemma same_frame_refl s : same_frame s s.
Proof. by repeat split. Qed.

Lemma same_frame_trans s1 s2 s3 :
  same_frame s1 s2 → same_frame s2 s3 → same_frame s1 s3.
Proof. unfold same_frame. intros (?&?&?&?&?) (?&?&?&?&?). repeat split; congruence. Qed.

Lemma assign_flag_frame p s r s' :
  assign_flag mark p s = (r, s') → same_frame s s'.
Proof.
  destruct r as [[]|].
  - intros (row & sl & Hrow & Hsl & ->)%assign_flag_returns.
    repeat split; simpl. unfold skeleton_grid. simpl.
    rewrite !list_fmap_insert, mark_skeleton.
    rewrite (list_insert_id (skeleton <$> row)) by (by rewrite list_lookup_fmap, Hsl).
    apply list_insert_id. by rewrite list_lookup_fmap, Hrow.
  - intros [-> _]%assign_flag_raises. apply same_frame_refl.
Qed.

(** Assigning a flag that is already set changes nothing. *)
Lemma assign_flag_again p s sl :
  cell s (pos_y p) (pos_x p) = Some (mark sl) →
  assign_flag mark p s = (Ok tt, s).
Proof.
  intros (row & Hrow & Hsl)%cell_Some. unfold assign_flag.
  rewrite Hrow, Hsl, mark_idemp. f_equal.
  rewrite (list_insert_id row) by done.
  rewrite list_insert_id by done. apply with_slots_id.
Qed.

Lemma assign_flag_absent p s :
  cell s (pos_y p) (pos_x p) = None → assign_flag mark p s = (TypeError, s).
Proof.
  unfold cell, assign_flag. destruct (slots s !! pos_y p) as [row|]; [|done].
  by intros ->.
Qed.
End Assign.
End FlagFacts.

Section ForEachFacts.
Context {Value : Type}.

Local Abbreviation Slot := (BingoSlot Value).
Local Abbreviation Sheet := (BingoSheet Value).

Implicit Types (s : Sheet) (sl : Slot) (p : Position).

Lemma for_each_fmap {A B : Type} (f : B → Method Value unit) (g : A → B) xs :
  ∀ s, for_each (λ a, f (g a)) xs s = for_each f (g <$> xs) s.
Proof.
  induction xs as [|a xs IH]; intros s; simpl; [done|].
  unfold bind. destruct (f (g a) s) as [[[]|] s1]; [apply IH|done].
Qed.

Lemma for_each_app {A : Type} (f : A → Method Value unit) xs1 xs2 :
  ∀ s, for_each f (xs1 ++ xs2) s
       = bind (for_each f xs1) (λ _, for_each f xs2) s.
Proof.
  induction xs1 as [|a xs1 IH]; intros s; simpl; [done|].
  unfold bind. destruct (f a s) as [[[]|] s1]; [by rewrite IH|done].
Qed.

Variable mark : Slot → Slot.
Hypothesis mark_idemp : ∀ sl, mark (mark sl) = mark sl.
Hypothesis mark_skeleton : ∀ sl, skeleton (mark sl) = skeleton sl.

Lemma marked_at_nil y x (o : option Slot) : marked_at mark [] y x <$> o = o.
Proof.
  destruct o; simpl; [|done]. unfold marked_at.
  rewrite decide_False; [done|]. apply not_elem_of_nil.
Qed.

Lemma marked_at_cons p ps y x (o : option Slot) :
  marked_at mark ps y x <$> (marked_at mark [p] y x <$> o)
  = marked_at mark (p :: ps) y x <$> o.
Proof.
  destruct o as [sl|]; simpl; [|done]. f_equal. unfold marked_at.
  set (q := {| pos_x := x; pos_y := y |}).
  destruct (decide (q ∈ [p])) as [H1|H1];
    destruct (decide (q ∈ ps)) as [H2|H2];
    destruct (decide (q ∈ p :: ps)) as [H3|H3]; rewrite ?mark_idemp; try done;
    exfalso; revert H1 H2 H3; rewrite !elem_of_cons, elem_of_nil; tauto.
Qed.

(** What a run of assignments over the positions [ps] does: it sets the
    flag at a prefix of [ps], all of [ps] when it returns, the positions
    before the first one that is off the grid when it raises. *)
Lemma for_each_assign ps :
  ∀ s r s',
    for_each (assign_flag mark) ps s = (r, s') →
    same_frame s s'
    ∧ ∃ ps1 ps2,
        ps = ps1 ++ ps2
        ∧ (∀ y x, cell s' y x = marked_at mark ps1 y x <$> cell s y x)
        ∧ (∀ p, p ∈ ps1 → is_Some (cell s (pos_y p) (pos_x p)))
        ∧ match r with
          | Ok _ => ps2 = []
          | TypeError => ∃ p ps3, ps2 = p :: ps3
                                  ∧ cell s (pos_y p) (pos_x p) = None
          end.
Proof using mark_idemp mark_skeleton.
  induction ps as [|p ps IH]; intros s r s' Hrun; simpl in Hrun.
  - unfold ret in Hrun. simplify_eq. split; [apply same_frame_refl|].
    exists [], []. repeat split; try done.
    + intros. by rewrite marked_at_nil.
    + by intros p ?%elem_of_nil.
  - unfold bind in Hrun.
    destruct (assign_flag mark p s) as [[[]|] s1] eqn:Ha.
    + apply IH in Hrun as (Hfr & ps1 & ps2 & -> & Hcell & Hsome & Hr).
      pose proof (assign_flag_frame mark mark_skeleton _ _ _ _ Ha) as Hfr1.
      split; [by eapply same_frame_trans|].
      exists (p :: ps1), ps2. repeat split.
      * intros y x. rewrite Hcell, (assign_flag_cell mark p s s1) by done.
        apply marked_at_cons.
      * intros q [->|Hq]%elem_of_cons.
        -- apply assign_flag_returns in Ha as (row & sl & Hrow & Hsl & _).
           exists sl. apply cell_Some. eauto.
        -- specialize (Hsome q Hq).
           rewrite (assign_flag_cell mark p s s1) in Hsome by done.
           by apply fmap_is_Some in Hsome.
      * destruct r; [done|]. destruct Hr as (q & ps3 & -> & Hq).
        exists q, ps3. split; [done|].
        rewrite (assign_flag_cell mark p s s1) in Hq by done.
        by apply fmap_None in Hq.
    + simplify_eq. apply assign_flag_raises in Ha as [-> Hnone].
      split; [apply same_frame_refl|].
      exists [], (p :: ps). repeat split.
      * intros. by rewrite marked_at_nil.
      * by intros q ?%elem_of_nil.
      * by exists p, ps.
Qed.

Lemma for_each_assign_noop ps :
  ∀ s, (∀ p, p ∈ ps → ∃ sl, cell s (pos_y p) (pos_x p) = Some (mark sl)) →
       for_each (assign_flag mark) ps s = (Ok tt, s).
Proof using mark_idemp.
  induction ps as [|p ps IH]; intros s Hps; simpl; [done|].
  destruct (Hps p) as [sl Hsl]; [by left|].
  unfold bind. rewrite (assign_flag_again mark mark_idemp p s sl Hsl).
  apply IH. intros q Hq. apply Hps. by right.
Qed.

(** Running the same assignments a second time changes nothing more and
    ends the same way. *)
Lemma for_each_assign_again ps s r s' :
  for_each (assign_flag mark) ps s = (r, s') →
  for_each (assign_flag mark) ps s' = (r, s').
Proof using mark_idemp mark_skeleton.
  intros (_ & ps1 & ps2 & -> & Hcell & Hsome & Hr)%for_each_assign.
  rewrite for_each_app. unfold bind.
  rewrite for_each_assign_noop.
  - destruct r as [[]|]; [by subst|].
    destruct Hr as (q & ps3 & -> & Hq). simpl. unfold bind.
    rewrite assign_flag_absent; [done|]. by rewrite Hcell, Hq.
  - intros p Hp. destruct (Hsome p Hp) as [sl Hsl].
    exists sl. rewrite Hcell, Hsl. simpl. unfold marked_at.
    rewrite decide_True; [done|]. by destruct p.
Qed.
End ForEachFacts.

Section FrameFacts.
Context {Value : Type}.
Variable strict_eq : Value → Value → bool.

Local Abbreviation Slot := (BingoSlot Value).
Local Abbreviation Sheet := (BingoSheet Value).

Implicit Types (s : Sheet) (sl : Slot) (p : Position).

Lemma frame_row s s' y row' :
  same_frame s s' → slots s' !! y = Some row' →
  ∃ row, slots s !! y = Some row ∧ skeleton <$> row = skeleton <$> row'.
Proof.
  intros (_ & _ & _ & _ & Hgrid) Hrow'.
  assert (Hl : skeleton_grid s' !! y = Some (skeleton <$> row')).
  { unfold skeleton_grid. by rewrite list_lookup_fmap, Hrow'. }
  rewrite Hgrid in Hl. unfold skeleton_grid in Hl.
  rewrite list_lookup_fmap in Hl.
  destruct (slots s !! y) as [row|]; simplify_eq/=. by exists row.
Qed.

Lemma frame_cell s s' y x sl' :
  same_frame s s' → cell s' y x = Some sl' →
  ∃ sl, cell s y x = Some sl ∧ skeleton sl = skeleton sl'.
Proof.
  intros Hfr (row' & Hrow' & Hsl')%cell_Some.
  destruct (frame_row s s' y row' Hfr Hrow') as (row & Hrow & Heq).
  assert (Hl : (skeleton <$> row') !! x = Some (skeleton sl'))
    by (by rewrite list_lookup_fmap, Hsl').
  rewrite <-Heq, list_lookup_fmap in Hl.
  destruct (row !! x) as [sl|] eqn:Hsl; [|done].
  simpl in Hl. exists sl. split; [|unfold skeleton in *; congruence].
  apply cell_Some. eauto.
Qed.

(** The sheets of the data model stay so when only flags change. *)
Lemma same_frame_wf s s' : same_frame s s' → sheet_wf s → sheet_wf s'.
Proof.
  intros Hfr [Hrows Hcols Hpos].
  pose proof Hfr as (Hw & Hh & _ & _ & Hgrid). split.
  - rewrite Hh, <-Hrows.
    apply (f_equal length) in Hgrid. unfold skeleton_grid in Hgrid.
    by rewrite !length_fmap in Hgrid.
  - intros y row' Hrow'.
    destruct (frame_row s s' y row' Hfr Hrow') as (row & Hrow & Heq).
    apply (f_equal length) in Heq. rewrite !length_fmap in Heq.
    rewrite Hw, <-Heq. eauto.
  - intros y x sl' Hsl'.
    destruct (frame_cell s s' y x sl' Hfr Hsl') as (sl & Hsl & Heq).
    injection Heq as _ Heq. rewrite <-Heq. eauto.
Qed.

Lemma skeleton_flat s : skeleton <$> flat (slots s) = flat (skeleton_grid s).
Proof.
  unfold flat, skeleton_grid. induction (slots s) as [|row rows IH]; simpl; [done|].
  by rewrite fmap_app, IH.
Qed.

Lemma filter_value_positions v (l l' : list Slot) :
  skeleton <$> l' = skeleton <$> l →
  position <$> filter (λ slot, strict_eq (value slot) v = true) l'
  = position <$> filter (λ slot, strict_eq (value slot) v = true) l.
Proof.
  revert l'. induction l as [|a l IH]; intros [|a' l'] Heq; try done.
  simpl in Heq. injection Heq as Hv Hp Heq.
  rewrite !filter_cons, Hv. case_decide; simpl; [f_equal; [done|]|]; by apply IH.
Qed.

Lemma matching_frame v s s' :
  same_frame s s' →
  position <$> matching strict_eq v s' = position <$> matching strict_eq v s.
Proof.
  intros (_ & _ & _ & _ & Hgrid). unfold matching.
  apply filter_value_positions. by rewrite !skeleton_flat, Hgrid.
Qed.

Lemma punch_unfold h s :
  punch strict_eq h s
  = match for_each (assign_flag mark_punched)
            (position <$> matching strict_eq (value h) s) s with
    | (Ok _, s1) => (Ok s1, s1)
    | (TypeError, s1) => (TypeError, s1)
    end.
Proof.
  unfold punch, bind, this, save, set_punched, matching. simpl.
  rewrite (for_each_fmap (assign_flag mark_punched) position).
  by destruct (for_each _ _ s) as [[[]|] s1].
Qed.

(** Punching depends on the slot passed in through its value only. *)
Lemma punch_value h h' s : value h' = value h → punch strict_eq h' s = punch strict_eq h s.
Proof. intros Hv. by rewrite !punch_unfold, Hv. Qed.

Lemma punch_again h s : punch strict_eq h (punch strict_eq h s).2 = punch strict_eq h s.
Proof.
  rewrite (punch_unfold h s).
  destruct (for_each _ _ s) as [r s1] eqn:Hrun.
  pose proof (for_each_assign mark_punched mark_punched_idemp
                mark_punched_skeleton _ _ _ _ Hrun) as [Hfr _].
  apply (for_each_assign_again mark_punched mark_punched_idemp
           mark_punched_skeleton) in Hrun.
  assert (Hs1 : punch strict_eq h s1 = match r with
                                       | Ok _ => (Ok s1, s1)
                                       | TypeError => (TypeError, s1)
                                       end).
  { rewrite punch_unfold, (matching_frame _ s s1 Hfr), Hrun. by destruct r. }
  destruct r as [[]|]; simpl; by rewrite Hs1.
Qed.

(** On a sheet of the data model every matching slot sits where its
    position says, so [punch] returns and sets exactly their flags. *)
Lemma punch_wf_spec h s :
  sheet_wf s →
  ∃ s', punch strict_eq h s = (Ok s', s')
        ∧ same_frame s s'
        ∧ ∀ y x, cell s' y x = punched_by strict_eq (value h) <$> cell s y x.
Proof.
  intros Hwf. rewrite punch_unfold.
  destruct (for_each _ _ s) as [r s1] eqn:Hrun.
  apply (for_each_assign mark_punched mark_punched_idemp mark_punched_skeleton)
    in Hrun as (Hfr & ps1 & ps2 & Hps & Hcell & _ & Hr).
  assert (Hin : ∀ p, p ∈ position <$> matching strict_eq (value h) s →
                ∃ sl, cell s (pos_y p) (pos_x p) = Some sl
                      ∧ strict_eq (value sl) (value h) = true).
  { intros p (sl & -> & Hsl)%list_elem_of_fmap.
    apply list_elem_of_filter in Hsl as [Hm (y & x & Hc)%elem_of_flat].
    exists sl. rewrite (wf_position s Hwf y x sl Hc). simpl. done. }
  destruct r as [[]|].
  2:{ destruct Hr as (p & ps3 & -> & Hnone).
      destruct (Hin p) as (sl & Hsl & _); [|congruence].
      rewrite Hps. apply elem_of_app. right. by left. }
  subst ps2. rewrite app_nil_r in Hps. subst ps1.
  exists s1. split; [done|]. split; [done|].
  intros y x. rewrite Hcell. destruct (cell s y x) as [sl|] eqn:Hsl; simpl; [|done].
  f_equal. unfold marked_at, punched_by. case_decide as Hp.
  - destruct (Hin _ Hp) as (sl' & Hsl' & Hm). simpl in Hsl'.
    assert (sl' = sl) as -> by congruence. by rewrite Hm.
  - destruct (strict_eq (value sl) (value h)) eqn:Hm; [|done].
    exfalso. apply Hp. apply list_elem_of_fmap. exists sl. split.
    + by rewrite (wf_position s Hwf y x sl Hsl).
    + apply list_elem_of_filter. split; [done|]. apply elem_of_flat. eauto.
Qed.
End FrameFacts.

Section LineFacts.
Context {A : Type}.

Lemma every_by_Some (p : A → bool) (l : list A) :
  every_by p (Some <$> l) = Ok (forallb p l).
Proof. induction l as [|a l IH]; simpl; [done|]. by destruct (p a). Qed.

Lemma defined_Some (l : list A) : defined (Some <$> l) = l.
Proof. unfold defined. induction l as [|a l IH]; csimpl; [done|]. by rewrite IH. Qed.

Lemma all_defined (l : list (option A)) :
  Forall is_Some l → l = Some <$> defined l.
Proof.
  unfold defined. induction 1 as [|o l [a ->] _ IH]; csimpl; [done|]. by rewrite <-IH.
Qed.

(** A line read off coordinates that are all on the grid. *)
Lemma line_defined (f : nat → option A) n :
  (∀ i, i < n → is_Some (f i)) →
  f <$> seq 0 n = Some <$> defined (f <$> seq 0 n)
  ∧ length (defined (f <$> seq 0 n)) = n
  ∧ ∀ i, i < n → defined (f <$> seq 0 n) !! i = f i.
Proof.
  intros Hf.
  assert (Hall : f <$> seq 0 n = Some <$> defined (f <$> seq 0 n)).
  { apply all_defined. apply Forall_fmap, Forall_forall.
    intros i Hi%elem_of_seq. apply Hf. lia. }
  split; [done|]. split.
  - apply (f_equal length) in Hall. rewrite !length_fmap, length_seq in Hall. done.
  - intros i Hi. apply (f_equal (.!! i)) in Hall.
    rewrite !list_lookup_fmap, lookup_seq_lt in Hall by done. simpl in Hall.
    destruct (defined (f <$> seq 0 n) !! i); simpl in Hall; congruence.
Qed.

Lemma list_as_line (l : list A) : (λ x, l !! x) <$> seq 0 (length l) = Some <$> l.
Proof.
  apply list_eq. intros i. rewrite !list_lookup_fmap.
  destruct (decide (i < length l)) as [Hi|Hi].
  - rewrite lookup_seq_lt by done. simpl.
    destruct (lookup_lt_is_Some_2 l i Hi) as [a Ha]. by rewrite Ha.
  - rewrite lookup_seq_ge by lia. rewrite lookup_ge_None_2 by lia. done.
Qed.
End LineFacts.

Section ScanFacts.
Context {Value : Type}.

Local Abbreviation Slot := (BingoSlot Value).
Local Abbreviation Sheet := (BingoSheet Value).

Implicit Types (s : Sheet) (sl : Slot).

Lemma wf_cell_is_Some s y x :
  sheet_wf s → y < height s → x < width s → is_Some (cell s y x).
Proof.
  intros [Hrows Hcols _] Hy Hx.
  destruct (lookup_lt_is_Some_2 (slots s) y) as [row Hrow]; [lia|].
  unfold cell. rewrite Hrow. apply lookup_lt_is_Some_2.
  rewrite (Hcols y row Hrow). done.
Qed.

Lemma wf_row s k :
  sheet_wf s → k < height s → slots s !! k = Some (row_slots s k).
Proof.
  intros [Hrows Hcols _] Hk.
  destruct (lookup_lt_is_Some_2 (slots s) k) as [row Hrow]; [lia|].
  rewrite Hrow. f_equal. unfold row_slots.
  rewrite <-(Hcols k row Hrow).
  rewrite (list_fmap_ext _ (λ x, row !! x)).
  - by rewrite list_as_line, defined_Some.
  - intros _ x _. unfold cell. by rewrite Hrow.
Qed.

(** The arrays the scans build, read as lines of cells. *)
Lemma grid_line s (pick : nat → list Slot → option Slot) (col : nat → nat) :
  length (slots s) = height s →
  (∀ i row, i < height s → pick i row = row !! col i) →
  imap pick (slots s) = (λ i, cell s i (col i)) <$> seq 0 (height s).
Proof.
  intros Hrows Hpick. apply list_eq. intros i.
  rewrite list_lookup_imap, list_lookup_fmap.
  destruct (decide (i < height s)) as [Hi|Hi].
  - rewrite lookup_seq_lt by done. simpl. unfold cell.
    destruct (lookup_lt_is_Some_2 (slots s) i) as [row Hrow]; [lia|].
    rewrite Hrow. simpl. by rewrite Hpick.
  - rewrite lookup_seq_ge by lia. rewrite lookup_ge_None_2 by lia. done.
Qed.

Lemma column_as_line s k :
  length (slots s) = height s →
  column (slots s) k = (λ y, cell s y k) <$> seq 0 (height s).
Proof.
  intros Hrows. rewrite <-(grid_line s (λ _ row, row !! k) (λ _, k)) by done.
  unfold column. apply list_eq. intros i.
  by rewrite list_lookup_imap, list_lookup_fmap.
Qed.

Lemma wf_column s k :
  sheet_wf s → k < width s → column (slots s) k = Some <$> column_slots s k.
Proof.
  intros Hwf Hk. rewrite column_as_line by apply Hwf.
  apply line_defined. intros y Hy. by apply wf_cell_is_Some.
Qed.

Lemma wf_backslash s :
  sheet_wf s → width s = height s →
  backslash (slots s) = Some <$> main_diagonal s.
Proof.
  intros Hwf Hsq. unfold backslash.
  rewrite (grid_line s _ (λ i, i)); [|apply Hwf|done].
  apply line_defined. intros i Hi. apply wf_cell_is_Some; [done..|lia].
Qed.

Lemma wf_slash s :
  sheet_wf s → width s = height s →
  slash (height s) (slots s) = Some <$> anti_diagonal s.
Proof.
  intros Hwf Hsq. unfold slash.
  rewrite (grid_line s _ (λ i, height s - 1 - i)); [|apply Hwf|].
  - apply line_defined. intros i Hi. apply wf_cell_is_Some; [done..|lia].
  - intros i row Hi. rewrite decide_True by done. f_equal. lia.
Qed.

Lemma horizontal_scan_first s :
  sheet_wf s →
  ∀ n k0, k0 + n = height s →
    ∃ r, horizontal_scan (slots s) n k0 = Ok r
         ∧ ((∃ k, (k0 ≤ k ∧ k < height s)
                  ∧ fully_punched (row_slots s k) = true
                  ∧ (∀ j, k0 ≤ j → j < k → fully_punched (row_slots s j) = false)
                  ∧ r = row_slots s k)
            ∨ ((∀ k, k0 ≤ k → k < height s → fully_punched (row_slots s k) = false)
               ∧ r = [])).
Proof.
  intros Hwf. induction n as [|n IH]; intros k0 Hk0; simpl.
  - exists []. split; [done|]. right. split; [|done]. intros; lia.
  - rewrite (wf_row s k0) by (done || lia).
    fold (fully_punched (row_slots s k0)).
    destruct (fully_punched (row_slots s k0)) eqn:Hp.
    + eexists. split; [done|]. left. exists k0.
      split; [lia|]. split; [done|]. split; [intros; lia|done].
    + destruct (IH (S k0)) as (r & -> & Hr); [lia|].
      exists r. split; [done|].
      destruct Hr as [(k & [? ?] & Hk & Hbefore & ->)|[Hnone ->]].
      * left. exists k. split; [lia|]. split; [done|]. split; [|done].
        intros j ? ?. destruct (decide (j = k0)) as [->|]; [done|].
        apply Hbefore; lia.
      * right. split; [|done].
        intros k ? ?. destruct (decide (k = k0)) as [->|]; [done|].
        apply Hnone; lia.
Qed.

Lemma vertical_scan_first s :
  sheet_wf s →
  ∀ n k0, k0 + n = width s →
    ∃ r, vertical_scan (slots s) n k0 = Ok r
         ∧ ((∃ k, (k0 ≤ k ∧ k < width s)
                  ∧ fully_punched (column_slots s k) = true
                  ∧ (∀ j, k0 ≤ j → j < k → fully_punched (column_slots s j) = false)
                  ∧ r = column_slots s k)
            ∨ ((∀ k, k0 ≤ k → k < width s → fully_punched (column_slots s k) = false)
               ∧ r = [])).
Proof.
  intros Hwf. induction n as [|n IH]; intros k0 Hk0; simpl.
  - exists []. split; [done|]. right. split; [|done]. intros; lia.
  - rewrite (wf_column s k0) by (done || lia).
    rewrite every_by_Some, defined_Some.
    fold (fully_punched (column_slots s k0)).
    destruct (fully_punched (column_slots s k0)) eqn:Hp.
    + eexists. split; [done|]. left. exists k0.
      split; [lia|]. split; [done|]. split; [intros; lia|done].
    + destruct (IH (S k0)) as (r & -> & Hr); [lia|].
      exists r. split; [done|].
      destruct Hr as [(k & [? ?] & Hk & Hbefore & ->)|[Hnone ->]].
      * left. exists k. split; [lia|]. split; [done|]. split; [|done].
        intros j ? ?. destruct (decide (j = k0)) as [->|]; [done|].
        apply Hbefore; lia.
      * right. split; [|done].
        intros k ? ?. destruct (decide (k = k0)) as [->|]; [done|].
        apply Hnone; lia.
Qed.

Lemma diagonal_scan_square s :
  sheet_wf s → width s = height s →
  diagonal_scan (width s) (height s) (slots s)
  = Ok ((if fully_punched (main_diagonal s) then main_diagonal s else [])
        ++ (if fully_punched (anti_diagonal s) then anti_diagonal s else [])).
Proof.
  intros Hwf Hsq. unfold diagonal_scan.
  rewrite decide_True by done.
  rewrite Hsq, Nat.min_id.
  rewrite wf_backslash, wf_slash by done.
  rewrite !every_by_Some, !defined_Some. unfold fully_punched.
  destruct (forallb punched (main_diagonal s)),
    (forallb punched (anti_diagonal s)); simpl; by rewrite ?app_nil_r.
Qed.
End ScanFacts.

Section MethodFacts.
Context {Value : Type}.
Variable strict_eq : Value → Value → bool.

Local Abbreviation Slot := (BingoSlot Value).
Local Abbreviation Sheet := (BingoSheet Value).

Implicit Types (s : Sheet) (sl : Slot).

Lemma flat_lookup {A : Type} w (rows : list (list A)) :
  Forall (λ r, length r = w) rows →
  ∀ y x, x < w →
    flat rows !! (y * w + x)
    = match rows !! y with Some row => row !! x | None => None end.
Proof.
  unfold flat. induction 1 as [|row rows Hrow _ IH]; intros y x Hx; [done|].
  simpl. destruct y as [|y]; simpl.
  - apply lookup_app_l. lia.
  - rewrite lookup_app_r by lia.
    replace (w + y * w + x - length row) with (y * w + x) by lia. by apply IH.
Qed.

Lemma flags_kept_refl sl : flags_kept sl sl.
Proof. by split. Qed.

Lemma flags_kept_trans sl1 sl2 sl3 :
  flags_kept sl1 sl2 → flags_kept sl2 sl3 → flags_kept sl1 sl3.
Proof. intros [? ?] [? ?]. split; auto. Qed.

(** Where each operation leaves the sheet: as a run of assignments of one
    of the two flags leaves it. *)
Lemma getBingo_state s :
  ∃ ps, (getBingo s).2 = (for_each (assign_flag mark_bingo) ps s).2.
Proof.
  unfold getBingo, getHorizontalBingo, getVerticalBingo, getDiagonalBingo,
    markSlotsIfBingo, bind, this, lift, ret, set_bingo. simpl.
  destruct (horizontal_scan _ _ _) as [hs|]; [|by exists []].
  destruct (vertical_scan _ _ _) as [vs|]; [|by exists []].
  destruct (diagonal_scan _ _ _) as [ds|]; [|by exists []].
  exists (position <$> (hs ++ vs) ++ ds).
  rewrite (for_each_fmap (assign_flag mark_bingo) position).
  by destruct (for_each _ _ s) as [[[]|] s1].
Qed.

Lemma after_state op s :
  ∃ mark ps,
    (mark = mark_punched ∨ mark = mark_bingo)
    ∧ after strict_eq op s = (for_each (assign_flag mark) ps s).2.
Proof.
  destruct op as [payload|h| | | | |]; simpl.
  - exists mark_punched, []. by split; [left|].
  - exists mark_punched, (position <$> matching strict_eq (value h) s).
    split; [by left|]. rewrite punch_unfold.
    by destruct (for_each _ _ s) as [[[]|] s1].
  - destruct (getBingo_state s) as [ps Hps].
    exists mark_bingo, ps. by split; [right|].
  - destruct (getBingo_state s) as [ps Hps].
    exists mark_bingo, ps. split; [by right|]. rewrite <-Hps.
    unfold isBingo, bind, ret. by destruct (getBingo s) as [[found|] s1].
  - exists mark_punched, []. split; [by left|].
    unfold getHorizontalBingo, bind, this, lift. done.
  - exists mark_punched, []. split; [by left|].
    unfold getVerticalBingo, bind, this, lift. done.
  - exists mark_punched, []. split; [by left|].
    unfold getDiagonalBingo, bind, this, lift. done.
Qed.

Lemma assignments_keep_flags (mark : Slot → Slot) ps s y x sl :
  mark = mark_punched ∨ mark = mark_bingo →
  cell s y x = Some sl →
  ∃ sl', cell (for_each (assign_flag mark) ps s).2 y x = Some sl'
         ∧ flags_kept sl sl'.
Proof.
  intros Hmark Hsl.
  destruct (for_each (assign_flag mark) ps s) as [r s'] eqn:Hrun.
  assert (Hcell : ∃ ps1, cell s' y x = marked_at mark ps1 y x <$> cell s y x).
  { destruct Hmark as [->| ->].
    - apply (for_each_assign mark_punched mark_punched_idemp mark_punched_skeleton)
        in Hrun as (_ & ps1 & _ & _ & Hcell & _). eauto.
    - apply (for_each_assign mark_bingo mark_bingo_idemp mark_bingo_skeleton)
        in Hrun as (_ & ps1 & _ & _ & Hcell & _). eauto. }
  destruct Hcell as [ps1 Hcell]. simpl. rewrite Hcell, Hsl. simpl.
  eexists. split; [done|]. unfold marked_at.
  case_decide; [|apply flags_kept_refl].
  destruct Hmark as [->| ->]; by split.
Qed.

Lemma after_keeps_flags op s y x sl :
  cell s y x = Some sl →
  ∃ sl', cell (after strict_eq op s) y x = Some sl' ∧ flags_kept sl sl'.
Proof.
  intros Hsl. destruct (after_state op s) as (mark & ps & Hmark & ->).
  by apply assignments_keep_flags.
Qed.
End MethodFacts.

(** * The methods of a sheet: what the specification states *)

Section MethodClaims.
Context {Value : Type}.
Variable strict_eq : Value → Value → bool.

Local Abbreviation Slot := (BingoSlot Value).
Local Abbreviation Sheet := (BingoSheet Value).

Implicit Types (s : Sheet) (sl h : Slot).

(** C3. On a sheet of the data model, [punch(h)] returns and sets
    [punched] on every slot of the grid whose value is strictly equal to
    [h.value], whichever slot was passed in, and on no other slot; so if
    two distinct cells hold such a value, both are punched afterwards. *)
Theorem punch_marks_every_matching_slot s h :
  sheet_wf s →
  ∃ s',
    punch strict_eq h s = (Ok s', s')
    ∧ (∀ y x sl, cell s y x = Some sl →
         cell s' y x
         = Some (if strict_eq (value sl) (value h) then mark_punched sl else sl))
    ∧ (∀ y x sl, cell s y x = Some sl →
         strict_eq (value sl) (value h) = true →
         punched <$> cell s' y x = Some true)
    ∧ (∀ y1 x1 y2 x2 sl1 sl2,
         (y1, x1) ≠ (y2, x2) →
         cell s y1 x1 = Some sl1 → cell s y2 x2 = Some sl2 →
         strict_eq (value sl1) (value h) = true →
         strict_eq (value sl2) (value h) = true →
         punched <$> cell s' y1 x1 = Some true
         ∧ punched <$> cell s' y2 x2 = Some true).
Proof.
  intros Hwf. destruct (punch_wf_spec strict_eq h s Hwf) as (s' & Hrun & _ & Hcell).
  assert (Hall : ∀ y x sl, cell s y x = Some sl →
                 strict_eq (value sl) (value h) = true →
                 punched <$> cell s' y x = Some true).
  { intros y x sl Hsl Hm. rewrite Hcell, Hsl. simpl.
    unfold punched_by. by rewrite Hm. }
  exists s'. split; [done|]. split; [|split; [done|]].
  - intros y x sl Hsl. by rewrite Hcell, Hsl.
  - intros y1 x1 y2 x2 sl1 sl2 _ H1 H2 Hm1 Hm2. split; eauto.
Qed.

(** C6. Punching a value a second time changes nothing: [punch] run on
    the sheet a first [punch] of the same value left behind ends as the
    first one did and leaves the same sheet, hence the same [punched]
    flag on every slot. *)
Theorem punch_twice_is_punch_once s h h' :
  value h' = value h →
  punch strict_eq h' (punch strict_eq h s).2 = punch strict_eq h s
  ∧ ∀ y x,
      punched <$> cell (punch strict_eq h' (punch strict_eq h s).2).2 y x
      = punched <$> cell (punch strict_eq h s).2 y x.
Proof.
  intros Hv.
  assert (Heq : punch strict_eq h' (punch strict_eq h s).2 = punch strict_eq h s)
    by (rewrite (punch_value strict_eq h h') by done; apply punch_again).
  split; [done|]. intros y x. by rewrite Heq.
Qed.

(** C7. [hit(payload)] returns, leaves the sheet as it was, and yields
    the first slot of the flattened grid whose value is strictly equal to
    [payload.value], or [undefined] when no slot is; on a sheet of the
    data model the flattened grid is the grid in row-major order. *)
Theorem hit_finds_the_first_match s payload :
  (∃ r,
     hit strict_eq payload s = (Ok r, s)
     ∧ match r with
       | Some sl =>
           ∃ k, flat (slots s) !! k = Some sl
                ∧ strict_eq (value sl) (payload_value payload) = true
                ∧ ∀ j sl', j < k → flat (slots s) !! j = Some sl' →
                    strict_eq (value sl') (payload_value payload) = false
       | None =>
           ∀ sl', sl' ∈ flat (slots s) →
                  strict_eq (value sl') (payload_value payload) = false
       end)
  ∧ (sheet_wf s →
     ∀ y x, x < width s → flat (slots s) !! (y * width s + x) = cell s y x).
Proof.
  split.
  - unfold hit, bind, this, ret. simpl. eexists. split; [done|].
    destruct (list_find _ (flat (slots s))) as [[k sl]|] eqn:Hfind; simpl.
    + apply list_find_Some in Hfind as (Hk & Hm & Hbefore).
      exists k. split; [done|]. split; [done|].
      intros j sl' Hj Hsl'. specialize (Hbefore j sl' Hsl' Hj).
      by destruct (strict_eq (value sl') (payload_value payload)).
    + rewrite list_find_None, Forall_forall in Hfind.
      intros sl' Hsl'. specialize (Hfind sl' Hsl').
      by destruct (strict_eq (value sl') (payload_value payload)).
  - intros [_ Hcols _] y x Hx. apply flat_lookup; [|done].
    apply Forall_forall. intros row [k Hk]%list_elem_of_lookup. eauto.
Qed.

(** C9. No operation of a sheet resets a flag: after any sequence of
    [hit], [punch], [getBingo], [isBingo] and the three scans, whether
    they returned or raised, every slot is still in its cell, and a
    [punched] or [bingo] flag that was [true] is [true]. Calling
    [getBingo] any number of times is one such sequence. *)
Theorem flags_are_never_reset (ops : list (operation Value)) s y x sl :
  cell s y x = Some sl →
  ∃ sl', cell (after_all strict_eq ops s) y x = Some sl' ∧ flags_kept sl sl'.
Proof.
  revert s sl. induction ops as [|op ops IH]; intros s sl Hsl; simpl.
  - exists sl. split; [done|]. apply flags_kept_refl.
  - destruct (after_keeps_flags strict_eq op s y x sl Hsl) as (sl1 & Hsl1 & Hk1).
    destruct (IH _ _ Hsl1) as (sl' & Hsl' & Hk).
    exists sl'. split; [done|]. by eapply flags_kept_trans.
Qed.
End MethodClaims.

Section DetectionClaims.
Context {Value : Type}.

Local Abbreviation Slot := (BingoSlot Value).
Local Abbreviation Sheet := (BingoSheet Value).

Implicit Types (s : Sheet) (sl : Slot).

Lemma diagonals_of_square s :
  sheet_wf s → width s = height s →
  length (main_diagonal s) = height s
  ∧ length (anti_diagonal s) = height s
  ∧ ∀ i, i < height s →
      main_diagonal s !! i = cell s i i
      ∧ anti_diagonal s !! i = cell s i (height s - 1 - i).
Proof.
  intros Hwf Hsq.
  destruct (line_defined (λ i, cell s i i) (height s)) as (_ & Hlm & Hm).
  { intros i Hi. apply wf_cell_is_Some; [done..|lia]. }
  destruct (line_defined (λ i, cell s i (height s - 1 - i)) (height s))
    as (_ & Hla & Ha).
  { intros i Hi. apply wf_cell_is_Some; [done..|lia]. }
  split; [done|]. split; [done|]. intros i Hi. split; [by apply Hm|by apply Ha].
Qed.

(** C4. On a sheet whose width differs from its height [getDiagonalBingo]
    returns the empty list, whatever is punched. On a square sheet of the
    data model it checks the main diagonal [slots[i][i]] and the
    anti-diagonal [slots[i][len - 1 - i]] each on its own and returns the
    fully punched ones one after the other; when both are and the side is
    odd, the centre slot is in the result twice. *)
Theorem diagonal_bingo_on_square_sheets_only s :
  (width s ≠ height s → getDiagonalBingo s = (Ok [], s))
  ∧ (sheet_wf s → width s = height s →
     getDiagonalBingo s
     = (Ok ((if fully_punched (main_diagonal s) then main_diagonal s else [])
            ++ (if fully_punched (anti_diagonal s) then anti_diagonal s else [])),
        s)
     ∧ length (main_diagonal s) = height s
     ∧ length (anti_diagonal s) = height s
     ∧ (∀ i, i < height s →
          main_diagonal s !! i = cell s i i
          ∧ anti_diagonal s !! i = cell s i (height s - 1 - i))
     ∧ (∀ m, height s = 2 * m + 1 →
          fully_punched (main_diagonal s) = true →
          fully_punched (anti_diagonal s) = true →
          ∃ centre found,
            getDiagonalBingo s = (Ok found, s)
            ∧ length found = 2 * height s
            ∧ cell s m m = Some centre
            ∧ found !! m = Some centre
            ∧ found !! (height s + m) = Some centre)).
Proof.
  split.
  - intros Hne. unfold getDiagonalBingo, bind, this, lift, diagonal_scan. simpl.
    by rewrite decide_False.
  - intros Hwf Hsq.
    assert (Hrun : getDiagonalBingo s
              = (Ok ((if fully_punched (main_diagonal s) then main_diagonal s else [])
                     ++ (if fully_punched (anti_diagonal s)
                         then anti_diagonal s else [])), s)).
    { unfold getDiagonalBingo, bind, this, lift. simpl.
      by rewrite diagonal_scan_square. }
    destruct (diagonals_of_square s Hwf Hsq) as (Hlm & Hla & Hdiag).
    split; [done|]. split; [done|]. split; [done|]. split; [done|].
    intros m Hodd Hpm Hpa. rewrite Hpm, Hpa in Hrun.
    destruct (wf_cell_is_Some s m m Hwf) as [centre Hc]; [lia..|].
    destruct (Hdiag m) as [Hm Ha]; [lia|].
    exists centre, (main_diagonal s ++ anti_diagonal s).
    split; [done|]. split; [rewrite length_app; lia|]. split; [done|]. split.
    + rewrite lookup_app_l by lia. by rewrite Hm.
    + rewrite lookup_app_r by lia.
      replace (height s + m - length (main_diagonal s)) with m by lia.
      rewrite Ha. replace (height s - 1 - m) with m by lia. done.
Qed.

(** C5. On a sheet of the data model [getHorizontalBingo] returns the
    slots of the first row, in the order of the row indices, whose slots
    are all punched, or the empty list when there is no such row, and
    [getVerticalBingo] does the same for columns; neither changes the
    sheet. *)
Theorem scans_return_the_first_complete_line s :
  sheet_wf s →
  (∃ r, getHorizontalBingo s = (Ok r, s)
        ∧ first_complete (row_slots s) (height s) r)
  ∧ (∃ c, getVerticalBingo s = (Ok c, s)
          ∧ first_complete (column_slots s) (width s) c)
  ∧ (∀ y x, y < height s → x < width s →
       row_slots s y !! x = cell s y x
       ∧ column_slots s x !! y = cell s y x).
Proof.
  intros Hwf. split; [|split].
  - destruct (horizontal_scan_first s Hwf (height s) 0 eq_refl) as (r & Hrun & Hr).
    exists r. unfold getHorizontalBingo, bind, this, lift. simpl.
    rewrite Hrun. split; [done|].
    destruct Hr as [(k & [_ Hk] & Hp & Hbefore & ->)|[Hnone ->]].
    + left. exists k. split; [done|]. split; [done|]. split; [|done].
      intros j Hj. apply Hbefore; lia.
    + right. split; [|done]. intros k Hk. apply Hnone; lia.
  - destruct (vertical_scan_first s Hwf (width s) 0 eq_refl) as (r & Hrun & Hr).
    exists r. unfold getVerticalBingo, bind, this, lift. simpl.
    rewrite Hrun. split; [done|].
    destruct Hr as [(k & [_ Hk] & Hp & Hbefore & ->)|[Hnone ->]].
    + left. exists k. split; [done|]. split; [done|]. split; [|done].
      intros j Hj. apply Hbefore; lia.
    + right. split; [|done]. intros k Hk. apply Hnone; lia.
  - intros y x Hy Hx. split.
    + unfold cell. by rewrite (wf_row s y Hwf Hy).
    + apply (line_defined (λ y', cell s y' x) (height s)); [|done].
      intros y' Hy'. by apply wf_cell_is_Some.
Qed.
End DetectionClaims.

(** * The sheets of the data model are the ones the engine works on *)

Section DataModelFacts.
Context {Value : Type}.
Variable strict_eq : Value → Value → bool.

Local Abbreviation Slot := (BingoSlot Value).
Local Abbreviation Sheet := (BingoSheet Value).

Implicit Types (s : Sheet) (sl : Slot).

Lemma forallb_id_lookup (bs : list bool) i b :
  forallb id bs = true → bs !! i = Some b → b = true.
Proof.
  rewrite forallb_forall. intros Hall Hb.
  apply (Hall b). apply list_elem_of_In. by eapply list_elem_of_lookup_2.
Qed.

Lemma check_wf_sound s : check_wf s = true → sheet_wf s.
Proof.
  unfold check_wf. intros [[Hrows Hcols]%andb_prop Hpos]%andb_prop.
  apply Nat.eqb_eq in Hrows. rewrite forallb_forall in Hcols. split.
  - done.
  - intros y row Hrow. apply Nat.eqb_eq, Hcols, list_elem_of_In.
    by eapply list_elem_of_lookup_2.
  - intros y x sl (row & Hrow & Hsl)%cell_Some.
    eapply (forallb_id_lookup _ y) in Hpos;
      [|by rewrite list_lookup_imap, Hrow].
    eapply (forallb_id_lookup _ x) in Hpos;
      [|by rewrite list_lookup_imap, Hsl].
    by apply bool_decide_eq_true in Hpos.
Qed.

(** Whatever the operations, a sheet of the data model stays one. *)
Lemma after_keeps_wf op s : sheet_wf s → sheet_wf (after strict_eq op s).
Proof.
  intros Hwf. destruct (after_state strict_eq op s) as (mark & ps & Hmark & ->).
  destruct (for_each (assign_flag mark) ps s) as [r s'] eqn:Hrun. simpl.
  apply (same_frame_wf s s'); [|done].
  destruct Hmark as [->| ->].
  - by apply (for_each_assign mark_punched mark_punched_idemp mark_punched_skeleton)
      in Hrun as [? _].
  - by apply (for_each_assign mark_bingo mark_bingo_idemp mark_bingo_skeleton)
      in Hrun as [? _].
Qed.

Lemma after_all_keeps_wf (ops : list (operation Value)) s :
  sheet_wf s → sheet_wf (after_all strict_eq ops s).
Proof.
  revert s. induction ops as [|op ops IH]; intros s Hwf; simpl; [done|].
  by apply IH, after_keeps_wf.
Qed.

(** On a sheet of the data model [getBingo] returns. *)
Lemma getBingo_returns s :
  sheet_wf s → ∃ found s', getBingo s = (Ok found, s') ∧ sheet_wf s'.
Proof.
  intros Hwf.
  destruct (horizontal_scan_first s Hwf (height s) 0 eq_refl) as (hs & Hh & Hhs).
  destruct (vertical_scan_first s Hwf (width s) 0 eq_refl) as (vs & Hv & Hvs).
  assert (Hd : ∃ ds, diagonal_scan (width s) (height s) (slots s) = Ok ds).
  { destruct (decide (width s = height s)) as [Hsq|Hne].
    - rewrite diagonal_scan_square by done. eauto.
    - unfold diagonal_scan. rewrite decide_False by done. eauto. }
  destruct Hd as [ds Hd].
  pose proof (after_keeps_wf OpGetBingo s Hwf) as Hwf'. simpl in Hwf'.
  unfold getBingo, getHorizontalBingo, getVerticalBingo, getDiagonalBingo,
    markSlotsIfBingo, bind, this, lift, ret, set_bingo in *. simpl in *.
  rewrite Hh, Hv, Hd in *.
  rewrite (for_each_fmap (assign_flag mark_bingo) position) in *.
  destruct (for_each _ _ s) as [r s'] eqn:Hrun.
  apply (for_each_assign mark_bingo mark_bingo_idemp mark_bingo_skeleton)
    in Hrun as (_ & ps1 & ps2 & Hps & _ & _ & Hr).
  destruct r as [[]|]; [eauto|].
  destruct Hr as (p & ps3 & -> & Hnone). exfalso.
  assert (Hin : p ∈ position <$> (hs ++ vs) ++ ds).
  { rewrite Hps. apply elem_of_app. right. by left. }
  apply list_elem_of_fmap in Hin as (sl & -> & Hsl).
  assert (Hflat : sl ∈ flat (slots s)).
  { rewrite !elem_of_app in Hsl. destruct Hsl as [[Hsl|Hsl]|Hsl].
    - destruct Hhs as [(k & [_ Hk] & _ & _ & ->)|[_ ->]]; [|by apply elem_of_nil in Hsl].
      apply list_elem_of_lookup in Hsl as [x Hx]. apply elem_of_flat.
      exists k, x. unfold cell. by rewrite (wf_row s k Hwf Hk).
    - destruct Hvs as [(k & [_ Hk] & _ & _ & ->)|[_ ->]]; [|by apply elem_of_nil in Hsl].
      apply list_elem_of_lookup in Hsl as [y Hy]. apply elem_of_flat.
      exists y, k. rewrite <-Hy. symmetry.
      apply (line_defined (λ y', cell s y' k) (height s)).
      + intros y' Hy'. by apply wf_cell_is_Some.
      + apply lookup_lt_Some in Hy.
        destruct (line_defined (λ y', cell s y' k) (height s)) as (_ & Hl & _).
        { intros y' Hy'. by apply wf_cell_is_Some. }
        unfold column_slots in Hy. lia.
    - destruct (decide (width s = height s)) as [Hsq|Hne].
      2:{ unfold diagonal_scan in Hd. rewrite decide_False in Hd by done.
          simplify_eq. by apply elem_of_nil in Hsl. }
      rewrite diagonal_scan_square in Hd by done. simplify_eq.
      destruct (diagonals_of_square s Hwf Hsq) as (Hlm & Hla & Hdiag).
      apply elem_of_app in Hsl as [Hsl|Hsl].
      + destruct (fully_punched (main_diagonal s)); [|by apply elem_of_nil in Hsl].
        apply list_elem_of_lookup in Hsl as [i Hi].
        pose proof (lookup_lt_Some _ _ _ Hi).
        apply elem_of_flat. exists i, i. rewrite <-Hi. symmetry. apply Hdiag. lia.
      + destruct (fully_punched (anti_diagonal s)); [|by apply elem_of_nil in Hsl].
        apply list_elem_of_lookup in Hsl as [i Hi].
        pose proof (lookup_lt_Some _ _ _ Hi).
        apply elem_of_flat. exists i, (height s - 1 - i).
        rewrite <-Hi. symmetry. apply Hdiag. lia. }
  apply elem_of_flat in Hflat as (y & x & Hc).
  rewrite (wf_position s Hwf y x sl Hc) in Hnone. simpl in Hnone. congruence.
Qed.
End DataModelFacts.

(** * The definitions at work *)

Lemma square_wf : sheet_wf Demo.square.
Proof. by apply check_wf_sound. Qed.

Lemma wide_wf : sheet_wf Demo.wide.
Proof. by apply check_wf_sound. Qed.

(** With an empty catalog a thousand rounds of the loop get nowhere. *)
Example init_empty_catalog_1x1 :
  init Demo.counting 0 1000 {| sheet_width := 1; sheet_height := 1 |}
    Demo.empty_store = None.
Proof. vm_compute. reflexivity. Qed.

(** Six slots from a catalog of two: three rounds of shuffling (a swap, no
    swap, a swap), each appended as the array stood after it. *)
Example init_3x2 :
  ∃ s, init Demo.counting 0 6 Demo.config Demo.store
       = Some (Ok s, {| variations := [Demo.entry 1 "A"; Demo.entry 2 "B"];
                        draws := 3 |})
       ∧ map (map value) (slots s) = [[2; 1; 2]; [1; 1; 2]]
       ∧ map (map position) (slots s)
         = [[{| pos_x := 0; pos_y := 0 |}; {| pos_x := 1; pos_y := 0 |};
             {| pos_x := 2; pos_y := 0 |}];
            [{| pos_x := 0; pos_y := 1 |}; {| pos_x := 1; pos_y := 1 |};
             {| pos_x := 2; pos_y := 1 |}]].
Proof. eexists. split; [vm_compute; reflexivity|]. split; reflexivity. Qed.

(** Scanning the value 2 finds the slot of row 0, and punching it punches
    the slot of row 2 as well. *)
Example hit_square :
  hit Nat.eqb {| payload_value := 2 |} Demo.square
  = (Ok (Some (Demo.slot 2 1 0 false)), Demo.square).
Proof. reflexivity. Qed.

Example punch_square :
  map (map punched) (slots (punch Nat.eqb (Demo.slot 2 1 0 false) Demo.square).2)
  = [[true; true; true]; [false; true; false]; [true; true; true]].
Proof. reflexivity. Qed.

(** Both diagonals of the square sheet are punched: the centre slot comes
    twice, and [getBingo] flags the five slots involved. *)
Example getDiagonalBingo_square :
  value <$> match (getDiagonalBingo Demo.square).1 with
            | Ok found => found
            | TypeError => []
            end
  = [1; 5; 9; 3; 5; 7].
Proof. reflexivity. Qed.

Example getBingo_square :
  map (map bingo) (slots (getBingo Demo.square).2)
  = [[true; false; true]; [false; true; false]; [true; false; true]].
Proof. reflexivity. Qed.

Example getBingo_wide :
  (value <$> match (getBingo Demo.wide).1 with
             | Ok found => found
             | TypeError => []
             end)
  = [1; 2; 3; 4; 1; 5; 9].
Proof. reflexivity. Qed.

(** * The statements above at these inputs *)

Lemma init_empty_catalog_never_returns_witness :
  0 < sheet_width Demo.config ∧ 0 < sheet_height Demo.config
  ∧ variations Demo.empty_store = []
  ∧ init Demo.counting 0 7 Demo.config Demo.empty_store = None.
Proof.
  split; [simpl; lia|]. split; [simpl; lia|]. split; [reflexivity|].
  apply init_empty_catalog_never_returns; simpl; [lia|lia|reflexivity].
Defined.

Lemma generation_covers_catalog_witness :
  1 ≤ length (variations Demo.store)
  ∧ sheet_width Demo.config * sheet_height Demo.config ≤ 6
  ∧ ∃ s st',
      init Demo.counting 0 6 Demo.config Demo.store = Some (Ok s, st')
      ∧ length (flat (slots s)) = 6
      ∧ ∀ e, e ∈ Demo.catalog → 3 ≤ occurrences e (flat (slots s)).
Proof.
  split; [simpl; lia|]. split; [simpl; lia|].
  apply (generation_covers_catalog Demo.counting 0 6 Demo.config Demo.store);
    simpl; lia.
Defined.

Lemma generated_slots_know_their_position_witness :
  variations Demo.store ≠ []
  ∧ sheet_width Demo.config * sheet_height Demo.config ≤ 6
  ∧ ∃ s st', init Demo.counting 0 6 Demo.config Demo.store = Some (Ok s, st').
Proof.
  split; [discriminate|]. split; [simpl; lia|].
  apply (generated_slots_know_their_position
           Demo.counting 0 6 Demo.config Demo.store);
    [discriminate|simpl; lia].
Defined.

Lemma init_shuffles_the_catalog_in_place_witness :
  variations Demo.store ≠ []
  ∧ sheet_width Demo.config * sheet_height Demo.config ≤ 6
  ∧ ∃ s st', init Demo.counting 0 6 Demo.config Demo.store = Some (Ok s, st').
Proof.
  split; [discriminate|]. split; [simpl; lia|].
  apply (init_shuffles_the_catalog_in_place
           Demo.counting 0 6 Demo.config Demo.store);
    [discriminate|simpl; lia].
Defined.

Lemma punch_marks_every_matching_slot_witness :
  sheet_wf Demo.square
  ∧ ∃ s', punch Nat.eqb (Demo.slot 2 1 0 false) Demo.square = (Ok s', s')
          ∧ punched <$> cell s' 0 1 = Some true
          ∧ punched <$> cell s' 2 1 = Some true.
Proof.
  split; [exact square_wf|].
  destruct (punch_marks_every_matching_slot Nat.eqb Demo.square
              (Demo.slot 2 1 0 false) square_wf) as (s' & Hrun & _ & _ & Hboth).
  exists s'. split; [exact Hrun|].
  apply (Hboth 0 1 2 1 (Demo.slot 2 1 0 false) (Demo.slot 2 1 2 false));
    [discriminate|reflexivity..].
Defined.

Lemma punch_twice_is_punch_once_witness :
  value (Demo.slot 2 1 2 false) = value (Demo.slot 2 1 0 false)
  ∧ punch Nat.eqb (Demo.slot 2 1 2 false)
      (punch Nat.eqb (Demo.slot 2 1 0 false) Demo.square).2
    = punch Nat.eqb (Demo.slot 2 1 0 false) Demo.square.
Proof.
  split; [reflexivity|].
  apply (punch_twice_is_punch_once Nat.eqb Demo.square
           (Demo.slot 2 1 0 false) (Demo.slot 2 1 2 false)).
  reflexivity.
Defined.

Lemma hit_finds_the_first_match_witness :
  sheet_wf Demo.square
  ∧ flat (slots Demo.square) !! (2 * width Demo.square + 1)
    = cell Demo.square 2 1.
Proof.
  split; [exact square_wf|].
  apply (hit_finds_the_first_match Nat.eqb Demo.square {| payload_value := 2 |});
    [exact square_wf|simpl; lia].
Defined.

Lemma flags_are_never_reset_witness :
  cell Demo.square 0 0 = Some (Demo.slot 1 0 0 true)
  ∧ ∃ sl',
      cell (after_all Nat.eqb
              [OpPunch (Demo.slot 2 1 0 false); OpGetBingo; OpGetBingo; OpIsBingo]
              Demo.square) 0 0 = Some sl'
      ∧ flags_kept (Demo.slot 1 0 0 true) sl'.
Proof.
  split; [reflexivity|].
  apply (flags_are_never_reset Nat.eqb). reflexivity.
Defined.

Lemma diagonal_bingo_on_square_sheets_only_witness :
  (width Demo.wide ≠ height Demo.wide
   ∧ getDiagonalBingo Demo.wide = (Ok [], Demo.wide))
  ∧ (sheet_wf Demo.square ∧ width Demo.square = height Demo.square
     ∧ ∃ centre found,
         getDiagonalBingo Demo.square = (Ok found, Demo.square)
         ∧ length found = 2 * height Demo.square
         ∧ cell Demo.square 1 1 = Some centre
         ∧ found !! 1 = Some centre
         ∧ found !! (height Demo.square + 1) = Some centre).
Proof.
  split.
  - split; [discriminate|].
    apply (diagonal_bingo_on_square_sheets_only Demo.wide). discriminate.
  - split; [exact square_wf|]. split; [reflexivity|].
    destruct (diagonal_bingo_on_square_sheets_only Demo.square) as [_ Hsquare].
    destruct (Hsquare square_wf eq_refl) as (_ & _ & _ & _ & Hcentre).
    apply (Hcentre 1); reflexivity.
Defined.

Lemma scans_return_the_first_complete_line_witness :
  sheet_wf Demo.wide
  ∧ (∃ r, getHorizontalBingo Demo.wide = (Ok r, Demo.wide)
          ∧ first_complete (row_slots Demo.wide) (height Demo.wide) r)
  ∧ (∃ c, getVerticalBingo Demo.wide = (Ok c, Demo.wide)
          ∧ first_complete (column_slots Demo.wide) (width Demo.wide) c).
Proof.
  split; [exact wide_wf|].
  destruct (scans_return_the_first_complete_line Demo.wide wide_wf)
    as (Hrow & Hcol & _).
  split; [exact Hrow|exact Hcol].
Defined.

(** * More on the shuffle and on generation *)

Section ShuffleMore.
Variable random : nat → nat.
Context {T : Type}.
Implicit Types arr : list T.

Lemma swap_length arr i j : length (swap arr i j) = length arr.
Proof. by rewrite swap_Permutation. Qed.

Lemma swap_lookup_other arr i j m :
  m ≠ i → m ≠ j → swap arr i j !! m = arr !! m.
Proof.
  intros Hi Hj. unfold swap.
  destruct (arr !! i) as [ai|]; [|done]. destruct (arr !! j) as [aj|]; [|done].
  by rewrite !list_lookup_insert_ne by done.
Qed.

Lemma swap_lookup_first arr i j :
  i < length arr → j < length arr → swap arr i j !! i = arr !! j.
Proof.
  intros Hi Hj. unfold swap.
  destruct (lookup_lt_is_Some_2 arr i Hi) as [ai Hai].
  destruct (lookup_lt_is_Some_2 arr j Hj) as [aj Haj].
  rewrite Hai, Haj. destruct (decide (j = i)) as [->|Hne].
  - rewrite list_lookup_insert_eq by (by rewrite length_insert). congruence.
  - rewrite list_lookup_insert_ne by done. by rewrite list_lookup_insert_eq.
Qed.

(** The rounds of the loop for [i] and below leave what is above [i] alone. *)
Lemma arrayShuffle_loop_above i :
  ∀ arr k m, i < m → (arrayShuffle_loop random i arr k).1 !! m = arr !! m.
Proof.
  induction i as [|i IH]; intros arr k m Hm; simpl; [done|].
  rewrite IH by lia. apply swap_lookup_other; [lia|].
  unfold random_below.
  pose proof (Nat.mod_upper_bound (random k) (S i + 1) ltac:(lia)). lia.
Qed.
End ShuffleMore.

Section GenerationMore.
Context {Value : Type}.
Variable random : nat → nat.
Variable now : nat.

Local Abbreviation Slot := (BingoSlot Value).
Local Abbreviation Catalog := (list (IBingoSlotConfig Value)).
Local Abbreviation created w vs := (imap (λ i v, createSlot v i w) (vs : Catalog)).

(** How many rounds the loop of [getShuffledListWithLength] makes: it stops
    at the first round after which [dest] is long enough. *)
Lemma fill_loop_rounds fuel :
  ∀ (dest : Catalog) len (st : Store Value) dest' st',
    fill_loop random fuel dest len st = Some (dest', st') →
    ∃ n, length dest' = length dest + n * length (variations st)
         ∧ draws st' = draws st + n * (length (variations st) - 1)
         ∧ (n = 0 ∨ length dest + (n - 1) * length (variations st) < len).
Proof.
  induction fuel as [|fuel IH]; intros dest len st dest' st' Hrun; simpl in Hrun.
  - destruct (decide (length dest < len)); [done|]. simplify_eq.
    exists 0. split; [lia|]. split; [lia|]. by left.
  - destruct (decide (length dest < len)) as [Hlt|];
      [|simplify_eq; exists 0; split; [lia|]; split; [lia|]; by left].
    pose proof (arrayShuffle_length random (variations st) (draws st)) as Hlen.
    pose proof (arrayShuffle_loop_draws random
                  (length (variations st) - 1) (variations st) (draws st)) as Hk.
    fold (arrayShuffle random (variations st) (draws st)) in Hk.
    destruct (arrayShuffle random (variations st) (draws st)) as [arr k].
    simpl in Hlen, Hk.
    apply IH in Hrun as (n & Hl & Hd & Hn). simpl in *.
    rewrite length_app, Hlen in *.
    exists (S n). split; [lia|]. split; [lia|]. right.
    destruct Hn as [->|Hn]; [simpl; lia|].
    destruct n as [|n]; simpl in *; lia.
Qed.

Lemma init_run fuel config (st : Store Value) r st' :
  init random now fuel config st = Some (r, st') →
  ∃ dest : Catalog,
    fill_loop random fuel [] (sheet_width config * sheet_height config) st
    = Some (dest, st')
    ∧ sheet_width config * sheet_height config ≤ length dest
    ∧ r = Ok (new_BingoSheet now (sheet_width config) (sheet_height config)
                (chunks (sheet_width config) (sheet_height config)
                   (created (sheet_width config)
                      (take (sheet_width config * sheet_height config) dest)))
                None).
Proof.
  unfold init, getShuffledListWithLength.
  set (w := sheet_width config). set (h := sheet_height config). simpl.
  destruct (fill_loop random fuel [] (w * h) st) as [[dest st1]|] eqn:Hrun; [|done].
  destruct (fill_loop_spec random fuel (variations st) _ _ _ _ _ Hrun)
    as (_ & _ & Hlen & _); [apply in_blocks_nil|done|].
  rewrite <-(chunks_nil w h).
  pose proof (place_slots_spec w h (take (w * h) dest) []) as Hplace.
  simpl in Hplace. rewrite Hplace by (rewrite length_take; lia).
  intros ?; simplify_eq. by exists dest.
Qed.

Lemma blocks_size (arr : Catalog) (bs : list Catalog) e `{EqDecision Value} :
  Forall (λ b, b ≡ₚ arr) bs →
  length (mjoin bs) = length bs * length arr
  ∧ count_of e (mjoin bs) = length bs * count_of e arr.
Proof.
  induction 1 as [|b bs Hb _ [IHl IHc]]; simpl; [done|].
  rewrite length_app, count_of_app, IHl, IHc.
  by rewrite (Permutation_length Hb), (count_of_Permutation e b arr Hb).
Qed.

Lemma count_of_take_le `{EqDecision Value} (e : IBingoSlotConfig Value)
    (l : Catalog) n :
  count_of e (take n l) ≤ count_of e l.
Proof.
  rewrite <-(take_drop n l) at 2. rewrite count_of_app. lia.
Qed.

Lemma rounds_needed n c len :
  1 ≤ c → len ≤ n * c → (n = 0 ∨ (n - 1) * c < len) → n = (len + c - 1) / c.
Proof.
  intros Hc Hle Hn.
  apply (Nat.div_unique _ _ _ (len + c - 1 - c * n)); destruct Hn as [->|Hn]; nia.
Qed.
End GenerationMore.

Section GenerationExtras.
Context {Value : Type}.
Variable random : nat → nat.
Variable now : nat.

Local Abbreviation Slot := (BingoSlot Value).
Local Abbreviation Catalog := (list (IBingoSlotConfig Value)).
Local Abbreviation created w vs := (imap (λ i v, createSlot v i w) (vs : Catalog)).

(** X1. Whatever the draws, [arrayShuffle] returns a rearrangement of the
    array it was given, of the same length, and makes one draw for each
    index from the last down to 1: none on an empty or one-element array. *)
Theorem arrayShuffle_rearranges {T : Type} (arr : list T) k :
  (arrayShuffle random arr k).1 ≡ₚ arr
  ∧ length (arrayShuffle random arr k).1 = length arr
  ∧ (arrayShuffle random arr k).2 = k + (length arr - 1).
Proof.
  split; [apply arrayShuffle_Permutation|].
  split; [apply arrayShuffle_length|]. apply arrayShuffle_loop_draws.
Qed.

(** X2. The first draw of [arrayShuffle] settles the last entry: the
    shuffled array ends with the entry that was at the index drawn, and no
    later round moves it. *)
Theorem arrayShuffle_first_draw_settles_last {T : Type} (arr : list T) k :
  arr ≠ [] →
  (arrayShuffle random arr k).1 !! (length arr - 1)
  = arr !! (random k mod length arr).
Proof.
  intros Hne. unfold arrayShuffle.
  destruct (length arr) as [|[|n]] eqn:Hlen.
  - by destruct arr.
  - change (1 - 1) with 0. cbn [arrayShuffle_loop fst]. by rewrite Nat.mod_1_r.
  - replace (S (S n) - 1) with (S n) by lia. cbn [arrayShuffle_loop].
    rewrite (arrayShuffle_loop_above random n) by lia.
    unfold random_below. replace (S n + 1) with (S (S n)) by lia.
    pose proof (Nat.mod_upper_bound (random k) (S (S n)) ltac:(lia)).
    apply swap_lookup_first; lia.
Qed.

(** X3. From a catalog that is not empty, [getShuffledListWithLength]
    returns exactly [len] entries, each of them an entry of the catalog. *)
Theorem getShuffledListWithLength_exact fuel len (st : Store Value) :
  variations st ≠ [] → len ≤ fuel →
  ∃ vs st',
    getShuffledListWithLength random fuel len st = Some (vs, st')
    ∧ length vs = len
    ∧ ∀ v, v ∈ vs → v ∈ variations st.
Proof.
  intros Hne Hfuel. unfold getShuffledListWithLength.
  destruct (fill_loop_returns random fuel [] len st Hne) as [[dest st'] Hrun];
    [simpl; lia|].
  destruct (fill_loop_spec random fuel (variations st) _ _ _ _ _ Hrun)
    as ((bs & -> & Hbs) & _ & Hlen & _); [apply in_blocks_nil|done|].
  rewrite Hrun. eexists _, _. split; [done|]. split.
  - rewrite length_take. lia.
  - intros v (i & Hv & _)%elem_of_take. apply list_elem_of_lookup_2 in Hv.
    apply list_elem_of_join in Hv as (b & Hvb & Hb).
    rewrite Forall_forall in Hbs. by rewrite <-(Hbs b Hb).
Qed.

(** X4. From a catalog of [c >= 1] entries, generation makes
    [ceil(L / c)] rounds of shuffling, each of [c - 1] draws, and no
    catalog entry is on more slots of the sheet than it has copies in
    that many catalogs. *)
Theorem generation_is_balanced `{EqDecision Value}
    fuel config (st : Store Value) :
  let len := sheet_width config * sheet_height config in
  let c := length (variations st) in
  1 ≤ c → len ≤ fuel →
  ∃ s st',
    init random now fuel config st = Some (Ok s, st')
    ∧ draws st' = draws st + (len + c - 1) / c * (c - 1)
    ∧ ∀ e, occurrences e (flat (slots s))
           ≤ (len + c - 1) / c * count_of e (variations st).
Proof.
  intros len c Hc Hfuel.
  assert (Hne : variations st ≠ []).
  { intros Hnil. subst c. rewrite Hnil in Hc. simpl in Hc. lia. }
  destruct (init_total random now fuel config st Hne Hfuel) as [[r st'] Hinit].
  destruct (init_run random now fuel config st r st' Hinit) as (dest & Hrun & Hlen & ->).
  fold len in Hrun, Hlen |- *.
  destruct (fill_loop_rounds random fuel _ _ _ _ _ Hrun) as (n & Hl & Hd & Hn).
  destruct (fill_loop_spec random fuel (variations st) _ _ _ _ _ Hrun)
    as ((bs & -> & Hbs) & _ & _ & _); [apply in_blocks_nil|done|].
  simpl in Hl, Hn. fold c in Hl, Hd, Hn.
  assert (Hrounds : n = (len + c - 1) / c) by (apply rounds_needed; lia).
  eexists _, st'. split; [done|]. split; [by rewrite Hd, Hrounds|].
  intros e. simpl. unfold occurrences.
  rewrite chunks_flat, take_ge
    by (rewrite length_imap, length_take; unfold len; lia).
  rewrite created_variations.
  etrans; [apply count_of_take_le|].
  destruct (blocks_size (variations st) bs e Hbs) as [Hsize ->].
  rewrite <-Hrounds. fold c in Hsize.
  assert (length bs = n) as -> by nia. done.
Qed.

(** X5. When the catalog has no entry twice and at least as many entries
    as the sheet has slots, no entry is on two slots of the sheet. *)
Theorem generation_without_repeats fuel config (st : Store Value) :
  NoDup (variations st) → variations st ≠ [] →
  sheet_width config * sheet_height config ≤ length (variations st) →
  sheet_width config * sheet_height config ≤ fuel →
  ∃ s st',
    init random now fuel config st = Some (Ok s, st')
    ∧ NoDup (variation_of <$> flat (slots s)).
Proof.
  intros Hnd Hne Hsmall Hfuel.
  destruct (init_total random now fuel config st Hne Hfuel) as [[r st'] Hinit].
  destruct (init_run random now fuel config st r st' Hinit) as (dest & Hrun & Hlen & ->).
  set (len := sheet_width config * sheet_height config) in *.
  destruct (fill_loop_rounds random fuel _ _ _ _ _ Hrun) as (n & Hl & _ & Hn).
  destruct (fill_loop_spec random fuel (variations st) _ _ _ _ _ Hrun)
    as ((bs & -> & Hbs) & _ & _ & _); [apply in_blocks_nil|done|].
  simpl in Hl, Hn.
  eexists _, st'. split; [done|]. simpl.
  rewrite chunks_flat, take_ge
    by (rewrite length_imap, length_take; unfold len; lia).
  rewrite created_variations.
  assert (Hc : 0 < length (variations st)) by (destruct (variations st); simpl; [done|lia]).
  assert (Hn1 : n ≤ 1) by (destruct Hn as [->|Hn]; [lia|]; destruct n as [|[|n]]; simpl in *; nia).
  assert (Hnd' : NoDup (mjoin bs)).
  { destruct bs as [|b [|b' bs]]; simpl in *.
    - constructor.
    - rewrite app_nil_r. apply Forall_cons in Hbs as [Hb _]. by rewrite Hb.
    - apply Forall_cons in Hbs as [Hb [Hb' _]%Forall_cons].
      rewrite !length_app, (Permutation_length Hb), (Permutation_length Hb') in Hl.
      nia. }
  by eapply sublist_NoDup; [|apply sublist_take].
Qed.

(** X6. A sheet without slots is generated at once, whatever the catalog
    (an empty one included) and whatever the fuel: no shuffle is made, no
    draw is taken, the catalog array is left as it was. *)
Theorem init_of_an_empty_grid fuel config (st : Store Value) :
  sheet_width config * sheet_height config = 0 →
  init random now fuel config st
  = Some (Ok (new_BingoSheet now (sheet_width config) (sheet_height config)
                (replicate (sheet_height config) []) None), st).
Proof.
  intros Hzero. unfold init, getShuffledListWithLength. simpl. rewrite Hzero.
  by destruct fuel.
Qed.

(** X7. A sheet that generation returns has the configured dimensions,
    [length = width * height], the date of its construction, and
    [width * height] slots; none of its slots is punched or flagged, and
    each was created from an entry of the catalog. *)
Theorem generated_sheet_is_fresh fuel config (st : Store Value) s st' :
  init random now fuel config st = Some (Ok s, st') →
  width s = sheet_width config ∧ height s = sheet_height config
  ∧ sheet_length s = sheet_width config * sheet_height config
  ∧ initialized s = now
  ∧ length (flat (slots s)) = sheet_width config * sheet_height config
  ∧ untouched s
  ∧ ∀ sl, sl ∈ flat (slots s) → variation_of sl ∈ variations st.
Proof.
  intros Hinit.
  destruct (init_run random now fuel config st _ _ Hinit) as (dest & Hrun & Hlen & Hs).
  injection Hs as Hs. subst s. simpl.
  set (w := sheet_width config) in *. set (h := sheet_height config) in *.
  destruct (fill_loop_spec random fuel (variations st) _ _ _ _ _ Hrun)
    as ((bs & -> & Hbs) & _ & _ & _); [apply in_blocks_nil|done|].
  do 4 (split; [done|]).
  assert (Hflat : flat (chunks w h (created w (take (w * h) (mjoin bs))))
                  = created w (take (w * h) (mjoin bs))).
  { rewrite chunks_flat. apply take_ge. rewrite length_imap, length_take. lia. }
  split; [|split].
  - rewrite Hflat, length_imap, length_take. lia.
  - intros sl. simpl. rewrite Hflat.
    intros [i Hi]%list_elem_of_lookup. rewrite list_lookup_imap in Hi.
    destruct (take (w * h) (mjoin bs) !! i); by simplify_eq/=.
  - intros sl. rewrite Hflat.
    intros [i Hi]%list_elem_of_lookup. rewrite list_lookup_imap in Hi.
    destruct (take (w * h) (mjoin bs) !! i) as [v|] eqn:Hv; simplify_eq/=.
    apply list_elem_of_lookup_2, elem_of_take in Hv as (j & Hv & _).
    apply list_elem_of_lookup_2 in Hv.
    apply list_elem_of_join in Hv as (b & Hvb & Hb).
    rewrite Forall_forall in Hbs. rewrite <-(Hbs b Hb). by destruct v.
Qed.
End GenerationExtras.

(** * More on the methods of a sheet *)

Section MapFacts.
Context {Value : Type}.
Variable strict_eq : Value → Value → bool.

Local Abbreviation Slot := (BingoSlot Value).
Local Abbreviation Sheet := (BingoSheet Value).

Implicit Types (s : Sheet) (sl : Slot) (g : Slot → Slot).

Lemma cell_map_slots g s y x : cell (map_slots g s) y x = g <$> cell s y x.
Proof.
  unfold cell, map_slots. simpl. rewrite list_lookup_fmap.
  destruct (slots s !! y) as [row|]; simpl; [|done]. by rewrite list_lookup_fmap.
Qed.

Lemma flat_map_slots g s : flat (slots (map_slots g s)) = g <$> flat (slots s).
Proof.
  unfold flat, map_slots. simpl.
  induction (slots s) as [|row rows IH]; csimpl; [done|].
  by rewrite fmap_app, IH.
Qed.

Lemma map_slots_frame g s :
  (∀ sl, skeleton (g sl) = skeleton sl) → same_frame s (map_slots g s).
Proof.
  intros Hg. repeat split. unfold skeleton_grid, map_slots. simpl.
  rewrite <-list_fmap_compose. apply list_fmap_ext. intros _ row _. simpl.
  rewrite <-list_fmap_compose. apply list_fmap_ext. intros _ sl _. apply Hg.
Qed.

Lemma map_slots_ext g1 g2 s :
  (∀ sl, g1 sl = g2 sl) → map_slots g1 s = map_slots g2 s.
Proof.
  intros Hg. unfold map_slots. f_equal.
  apply list_fmap_ext. intros _ row _. apply list_fmap_ext. intros _ sl _. apply Hg.
Qed.

Lemma map_slots_compose g1 g2 s :
  map_slots g2 (map_slots g1 s) = map_slots (g2 ∘ g1) s.
Proof.
  unfold map_slots, with_slots. simpl. f_equal.
  rewrite <-list_fmap_compose. apply list_fmap_ext. intros _ row _. simpl.
  by rewrite <-list_fmap_compose.
Qed.

(** Two sheets with the same frame and the same cells are the same sheet. *)
Lemma sheet_ext s s' :
  same_frame s s' → (∀ y x, cell s' y x = cell s y x) → s' = s.
Proof.
  intros Hfr Hcell. pose proof Hfr as (Hw & Hh & Hl & Hi & Hgrid).
  assert (Hslots : slots s' = slots s).
  { apply list_eq. intros y.
    destruct (slots s' !! y) as [row'|] eqn:Hrow'.
    - destruct (frame_row s s' y row' Hfr Hrow') as (row & Hrow & Heq).
      rewrite Hrow. f_equal. apply list_eq. intros x.
      specialize (Hcell y x). unfold cell in Hcell. by rewrite Hrow', Hrow in Hcell.
    - symmetry. apply lookup_ge_None. apply lookup_ge_None in Hrow'.
      apply (f_equal length) in Hgrid. unfold skeleton_grid in Hgrid.
      rewrite !length_fmap in Hgrid. lia. }
  destruct s, s'. simpl in *. by subst.
Qed.

(** On a sheet of the data model [punch] is a map over the grid. *)
Lemma punch_wf_map h s :
  sheet_wf s →
  punch strict_eq h s
  = (Ok (map_slots (punched_by strict_eq (value h)) s),
     map_slots (punched_by strict_eq (value h)) s).
Proof.
  intros Hwf.
  destruct (punch_wf_spec strict_eq h s Hwf) as (s' & -> & Hfr & Hcell).
  assert (s' = map_slots (punched_by strict_eq (value h)) s) as ->; [|done].
  apply sheet_ext.
  - eapply same_frame_trans; [|exact Hfr].
    assert (Hback : same_frame s (map_slots (punched_by strict_eq (value h)) s)).
    { apply map_slots_frame. intros sl. unfold punched_by.
      by destruct (strict_eq (value sl) (value h)). }
    destruct Hback as (?&?&?&?&?). repeat split; congruence.
  - intros y x. by rewrite Hcell, cell_map_slots.
Qed.

Lemma punched_by_value v sl : value (punched_by strict_eq v sl) = value sl.
Proof. unfold punched_by. by destruct (strict_eq (value sl) v). Qed.

Lemma punched_by_skeleton v sl : skeleton (punched_by strict_eq v sl) = skeleton sl.
Proof. unfold punched_by. by destruct (strict_eq (value sl) v). Qed.

Lemma punched_by_keeps v sl :
  punched sl = true → punched (punched_by strict_eq v sl) = true.
Proof. unfold punched_by. by destruct (strict_eq (value sl) v). Qed.
End MapFacts.

Section ScanMore.
Context {Value : Type}.

Local Abbreviation Slot := (BingoSlot Value).
Local Abbreviation Sheet := (BingoSheet Value).

Implicit Types (s : Sheet) (sl : Slot) (g : Slot → Slot).
Implicit Types (rows : list (list Slot)) (line : list (option Slot)).

(** What a scan depends on: the [punched] flags. *)
Section UnderMap.
Variable g : Slot → Slot.
Hypothesis g_punched : ∀ sl, punched (g sl) = punched sl.

Local Abbreviation mapped rows := ((λ row : list Slot, g <$> row) <$> rows).



Lemma defined_map line :
  defined ((λ o : option Slot, g <$> o) <$> line) = g <$> defined line.
Proof.
  unfold defined. induction line as [|[sl|] line IH]; csimpl; [done| |done].
  by rewrite IH.
Qed.







End UnderMap.

(** What a scan returns: slots of the grid that are all punched. *)
Lemma every_by_true line :
  every_by punched line = Ok true → forallb punched (defined line) = true.
Proof.
  unfold defined. induction line as [|[sl|] line IH]; csimpl; [done| |done].
  destruct (punched sl); [|done]. intros Hrest. by rewrite IH.
Qed.

Lemma defined_elem line sl : sl ∈ defined line ↔ Some sl ∈ line.
Proof.
  unfold defined. rewrite list_elem_of_omap. split.
  - intros (o & Ho & Hid). unfold id in Hid. by subst.
  - intros Hin. by exists (Some sl).
Qed.

Lemma column_in_grid rows col sl :
  sl ∈ defined (column rows col) → sl ∈ flat rows.
Proof.
  rewrite defined_elem. unfold column.
  intros (row & Hsl & Hrow)%list_elem_of_fmap.
  apply list_elem_of_join. exists row. split; [|done].
  by eapply list_elem_of_lookup_2.
Qed.

Lemma picked_in_grid (pick : nat → list Slot → option Slot) rows sl :
  (∀ i row a, pick i row = Some a → a ∈ row) →
  sl ∈ defined (imap pick rows) → sl ∈ flat rows.
Proof.
  intros Hpick. rewrite defined_elem.
  intros (i & row & Hsl & Hrow)%elem_of_lookup_imap.
  apply list_elem_of_join. exists row. split.
  - by apply (Hpick i).
  - by eapply list_elem_of_lookup_2.
Qed.

Lemma horizontal_scan_result rows n :
  ∀ k r, horizontal_scan rows n k = Ok r →
         forallb punched r = true ∧ ∀ sl, sl ∈ r → sl ∈ flat rows.
Proof.
  induction n as [|n IH]; intros k r Hrun; simpl in Hrun.
  - simplify_eq. split; [done|]. by intros sl ?%elem_of_nil.
  - destruct (rows !! k) as [row|] eqn:Hrow; [|done].
    destruct (forallb punched row) eqn:Hp; [|by eapply IH].
    simplify_eq. split; [done|]. intros sl Hsl.
    apply list_elem_of_join. exists r. split; [done|].
    by eapply list_elem_of_lookup_2.
Qed.

Lemma vertical_scan_result rows n :
  ∀ k r, vertical_scan rows n k = Ok r →
         forallb punched r = true ∧ ∀ sl, sl ∈ r → sl ∈ flat rows.
Proof.
  induction n as [|n IH]; intros k r Hrun; simpl in Hrun.
  - simplify_eq. split; [done|]. by intros sl ?%elem_of_nil.
  - destruct (every_by punched (column rows k)) as [[|]|] eqn:Hev; [| |done].
    + simplify_eq. split; [by apply every_by_true|]. apply column_in_grid.
    + by eapply IH.
Qed.

Lemma diagonal_scan_result w h rows r :
  diagonal_scan w h rows = Ok r →
  forallb punched r = true ∧ ∀ sl, sl ∈ r → sl ∈ flat rows.
Proof.
  unfold diagonal_scan. destruct (decide (w = h)).
  2:{ intros ?; simplify_eq. split; [done|]. by intros sl ?%elem_of_nil. }
  destruct (every_by punched (backslash rows)) as [b1|] eqn:H1; [|done].
  destruct (every_by punched (slash (w `min` h) rows)) as [b2|] eqn:H2; [|done].
  intros Hr. injection Hr as <-.
  assert (Hb : ∀ sl, sl ∈ defined (backslash rows) → sl ∈ flat rows).
  { intros sl. apply picked_in_grid. intros i row a Ha.
    by eapply list_elem_of_lookup_2. }
  assert (Hs : ∀ sl, sl ∈ defined (slash (w `min` h) rows) → sl ∈ flat rows).
  { intros sl. apply picked_in_grid. intros i row a Ha.
    destruct (decide (i < w `min` h)); [|done]. by eapply list_elem_of_lookup_2. }
  destruct b1, b2; simpl.
  - rewrite forallb_app, !every_by_true by done. split; [done|].
    intros sl [?|?]%elem_of_app; auto.
  - split; [by apply every_by_true|]. auto.
  - split; [by apply every_by_true|]. auto.
  - split; [done|]. by intros sl ?%elem_of_nil.
Qed.
End ScanMore.

Section BingoMore.
Context {Value : Type}.

Local Abbreviation Slot := (BingoSlot Value).
Local Abbreviation Sheet := (BingoSheet Value).

Implicit Types (s : Sheet) (sl : Slot) (found : list Slot).

Lemma getBingo_unfold s :
  getBingo s
  = match horizontal_scan (slots s) (height s) 0 with
    | TypeError => (TypeError, s)
    | Ok hs =>
        match vertical_scan (slots s) (width s) 0 with
        | TypeError => (TypeError, s)
        | Ok vs =>
            match diagonal_scan (width s) (height s) (slots s) with
            | TypeError => (TypeError, s)
            | Ok ds =>
                match for_each (assign_flag mark_bingo)
                        (position <$> (hs ++ vs) ++ ds) s with
                | (Ok _, s1) => (Ok ((hs ++ vs) ++ ds), s1)
                | (TypeError, s1) => (TypeError, s1)
                end
            end
        end
    end.
Proof.
  unfold getBingo, getHorizontalBingo, getVerticalBingo, getDiagonalBingo,
    markSlotsIfBingo, bind, this, lift, ret, set_bingo. simpl.
  destruct (horizontal_scan _ _ _) as [hs|]; [|done].
  destruct (vertical_scan _ _ _) as [vs|]; [|done].
  destruct (diagonal_scan _ _ _) as [ds|]; [|done].
  rewrite (for_each_fmap (assign_flag mark_bingo) position).
  by destruct (for_each _ _ s) as [[[]|] s1].
Qed.

Lemma isBingo_unfold s :
  isBingo s
  = match getBingo s with
    | (Ok found, s1) => (Ok (negb (length found =? 0)), s1)
    | (TypeError, s1) => (TypeError, s1)
    end.
Proof. unfold isBingo, bind, ret. by destruct (getBingo s) as [[found|] s1]. Qed.

Lemma flagged_skeleton found sl : skeleton (flagged found sl) = skeleton sl.
Proof. unfold flagged. by case_decide. Qed.




(** Flagging slots of the grid, on a sheet of the data model, is a map
    over the grid. *)
Lemma flag_found_wf s found :
  sheet_wf s → (∀ sl, sl ∈ found → sl ∈ flat (slots s)) →
  for_each (assign_flag mark_bingo) (position <$> found) s
  = (Ok tt, map_slots (flagged found) s).
Proof.
  intros Hwf Hgrid.
  destruct (for_each _ _ s) as [r s1] eqn:Hrun.
  apply (for_each_assign mark_bingo mark_bingo_idemp mark_bingo_skeleton)
    in Hrun as (Hfr & ps1 & ps2 & Hps & Hcell & _ & Hr).
  destruct r as [[]|].
  2:{ destruct Hr as (p & ps3 & -> & Hnone).
      assert (Hp : p ∈ position <$> found)
        by (rewrite Hps; apply elem_of_app; right; by left).
      apply list_elem_of_fmap in Hp as (sl & -> & Hsl).
      destruct (proj1 (elem_of_flat s sl) (Hgrid sl Hsl)) as (y & x & Hc).
      rewrite (wf_position s Hwf y x sl Hc) in Hnone. simpl in Hnone. congruence. }
  subst ps2. rewrite app_nil_r in Hps. subst ps1. f_equal.
  apply sheet_ext.
  - pose proof (map_slots_frame (flagged found) s (flagged_skeleton found))
      as (?&?&?&?&?).
    destruct Hfr as (?&?&?&?&?). repeat split; congruence.
  - intros y x. rewrite Hcell, cell_map_slots.
    destruct (cell s y x) as [sl|] eqn:Hsl; simpl; [|done]. f_equal.
    unfold marked_at, flagged.
    by rewrite (wf_position s Hwf y x sl Hsl).
Qed.

Lemma getBingo_wf s :
  sheet_wf s →
  ∃ hs vs ds,
    horizontal_scan (slots s) (height s) 0 = Ok hs
    ∧ vertical_scan (slots s) (width s) 0 = Ok vs
    ∧ diagonal_scan (width s) (height s) (slots s) = Ok ds
    ∧ (∀ sl, sl ∈ (hs ++ vs) ++ ds → sl ∈ flat (slots s))
    ∧ for_each (assign_flag mark_bingo) (position <$> (hs ++ vs) ++ ds) s
      = (Ok tt, map_slots (flagged ((hs ++ vs) ++ ds)) s)
    ∧ getBingo s
      = (Ok ((hs ++ vs) ++ ds), map_slots (flagged ((hs ++ vs) ++ ds)) s).
Proof.
  intros Hwf.
  destruct (horizontal_scan_first s Hwf (height s) 0 eq_refl) as (hs & Hh & _).
  destruct (vertical_scan_first s Hwf (width s) 0 eq_refl) as (vs & Hv & _).
  assert (Hd : ∃ ds, diagonal_scan (width s) (height s) (slots s) = Ok ds).
  { destruct (decide (width s = height s)) as [Hsq|Hne].
    - rewrite diagonal_scan_square by done. eauto.
    - unfold diagonal_scan. rewrite decide_False by done. eauto. }
  destruct Hd as [ds Hd].
  assert (Hgrid : ∀ sl, sl ∈ (hs ++ vs) ++ ds → sl ∈ flat (slots s)).
  { intros sl [[?|?]%elem_of_app|?]%elem_of_app.
    - by eapply horizontal_scan_result.
    - by eapply vertical_scan_result.
    - by eapply diagonal_scan_result. }
  pose proof (flag_found_wf s _ Hwf Hgrid) as Hflag.
  exists hs, vs, ds. do 5 (split; [done|]).
  by rewrite getBingo_unfold, Hh, Hv, Hd, Hflag.
Qed.

(** Lines that are all punched and hold no punched slot are empty. *)
Lemma unpunched_line_empty (r : list Slot) :
  forallb punched r = true → (∀ sl, sl ∈ r → punched sl = false) → r = [].
Proof.
  destruct r as [|sl r]; [done|]. simpl. intros Hp Hnone.
  rewrite (Hnone sl) in Hp by (by left). done.
Qed.

Lemma untouched_getBingo s :
  sheet_wf s → untouched s → getBingo s = (Ok [], s).
Proof.
  intros Hwf Hfresh.
  destruct (getBingo_wf s Hwf) as (hs & vs & ds & Hh & Hv & Hd & _ & _ & _).
  assert (Hempty : ∀ r, forallb punched r = true →
                        (∀ sl, sl ∈ r → sl ∈ flat (slots s)) → r = []).
  { intros r Hp Hin. apply unpunched_line_empty; [done|].
    intros sl Hsl. by apply Hfresh, Hin. }
  destruct (horizontal_scan_result _ _ _ _ Hh) as [? ?].
  destruct (vertical_scan_result _ _ _ _ Hv) as [? ?].
  destruct (diagonal_scan_result _ _ _ _ Hd) as [? ?].
  rewrite getBingo_unfold, Hh, Hv, Hd.
  by rewrite (Hempty hs), (Hempty vs), (Hempty ds).
Qed.

(** The lines of a sheet once a map is applied to its slots. *)
Lemma line_map (g : Slot → Slot) (f : nat → option Slot) n :
  defined ((λ i, g <$> f i) <$> seq 0 n) = g <$> defined (f <$> seq 0 n).
Proof.
  rewrite <-defined_map. f_equal. by rewrite <-list_fmap_compose.
Qed.

Lemma lines_map (g : Slot → Slot) s :
  (∀ k, row_slots (map_slots g s) k = g <$> row_slots s k)
  ∧ (∀ k, column_slots (map_slots g s) k = g <$> column_slots s k)
  ∧ main_diagonal (map_slots g s) = g <$> main_diagonal s
  ∧ anti_diagonal (map_slots g s) = g <$> anti_diagonal s.
Proof.
  unfold row_slots, column_slots, main_diagonal, anti_diagonal. simpl.
  repeat split; intros; rewrite <-line_map; f_equal;
    apply list_fmap_ext; intros; apply cell_map_slots.
Qed.

Lemma line_lengths s :
  sheet_wf s →
  (∀ k, k < height s → length (row_slots s k) = width s)
  ∧ (∀ k, k < width s → length (column_slots s k) = height s).
Proof.
  intros Hwf. split.
  - intros k Hk. eapply (wf_cols s Hwf k). by apply wf_row.
  - intros k Hk. apply (line_defined (λ y, cell s y k) (height s)).
    intros y Hy. by apply wf_cell_is_Some.
Qed.

(** With positive dimensions, on a sheet of the data model, [getBingo]
    finds something exactly when some line is fully punched. *)
Lemma found_iff_complete_line s found s' :
  sheet_wf s → 0 < width s → 0 < height s →
  getBingo s = (Ok found, s') →
  found ≠ [] ↔ has_complete_line s.
Proof.
  intros Hwf Hw Hh Hrun.
  destruct (line_lengths s Hwf) as [Hrl Hcl].
  destruct (horizontal_scan_first s Hwf (height s) 0 eq_refl) as (hs & Hhs & Hhc).
  destruct (vertical_scan_first s Hwf (width s) 0 eq_refl) as (vs & Hvs & Hvc).
  rewrite getBingo_unfold, Hhs, Hvs in Hrun.
  assert (Hnil : ∀ l : list Slot, 0 < length l → l ≠ []) by (by intros []; simpl; [lia|]).
  assert (Hrows : hs ≠ [] ↔ ∃ k, k < height s ∧ fully_punched (row_slots s k) = true).
  { destruct Hhc as [(k & [_ Hk] & Hp & _ & ->)|[Hnone ->]].
    - split; [eauto|]. intros _. apply Hnil. rewrite Hrl; lia.
    - split; [done|]. intros (k & Hk & Hp). rewrite Hnone in Hp by lia. done. }
  assert (Hcols : vs ≠ [] ↔ ∃ k, k < width s ∧ fully_punched (column_slots s k) = true).
  { destruct Hvc as [(k & [_ Hk] & Hp & _ & ->)|[Hnone ->]].
    - split; [eauto|]. intros _. apply Hnil. rewrite Hcl; lia.
    - split; [done|]. intros (k & Hk & Hp). rewrite Hnone in Hp by lia. done. }
  assert (Hdiag : ∃ ds, diagonal_scan (width s) (height s) (slots s) = Ok ds
            ∧ (ds ≠ [] ↔ width s = height s
                          ∧ (fully_punched (main_diagonal s) = true
                             ∨ fully_punched (anti_diagonal s) = true))).
  { destruct (decide (width s = height s)) as [Hsq|Hne].
    - rewrite diagonal_scan_square by done. eexists. split; [done|].
      destruct (diagonals_of_square s Hwf Hsq) as (Hlm & Hla & _).
      destruct (fully_punched (main_diagonal s)), (fully_punched (anti_diagonal s));
        simpl; split; try (intros _; split; [done|]; by auto);
        try (intros _; apply Hnil; rewrite ?length_app, ?app_nil_r; lia).
      + done.
      + by intros [_ [?|?]].
    - unfold diagonal_scan. rewrite decide_False by done. eexists. split; [done|].
      split; [done|]. by intros [? _]. }
  destruct Hdiag as (ds & Hds & Hdc). rewrite Hds in Hrun.
  destruct (for_each _ _ s) as [[[]|] s1]; [|done]. simplify_eq.
  unfold has_complete_line. rewrite <-Hrows, <-Hcols, <-Hdc.
  destruct hs, vs, ds; simpl; split; try done; try (intros _; by auto).
  intros [?|[?|?]]; done.
Qed.
End BingoMore.

Section MethodMore.
Context {Value : Type}.
Variable strict_eq : Value → Value → bool.
Variable random : nat → nat.
Variable now : nat.

Local Abbreviation Slot := (BingoSlot Value).
Local Abbreviation Sheet := (BingoSheet Value).
Local Abbreviation Catalog := (list (IBingoSlotConfig Value)).
Local Abbreviation created w vs := (imap (λ i v, createSlot v i w) (vs : Catalog)).

Implicit Types (s : Sheet) (sl h : Slot).

Lemma init_result fuel config (st : Store Value) s st' :
  init random now fuel config st = Some (Ok s, st') → sheet_wf s ∧ untouched s.
Proof.
  intros Hinit.
  destruct (init_run random now fuel config st _ _ Hinit) as (dest & _ & Hlen & Hs).
  injection Hs as Hs. subst s.
  set (w := sheet_width config) in *. set (h := sheet_height config) in *.
  assert (Hl : length (take (w * h) dest) = w * h) by (rewrite length_take; lia).
  split; [by apply chunks_wf|].
  intros sl. simpl. rewrite chunks_flat, take_ge by (by rewrite length_imap, Hl).
  intros [i Hi]%list_elem_of_lookup. rewrite list_lookup_imap in Hi.
  destruct (take (w * h) dest !! i); by simplify_eq/=.
Qed.

(** A search that looks at values only finds the same place in a grid
    whose slots were changed in their flags only. *)
Lemma list_find_value (g : Slot → Slot) v (l : list Slot) :
  (∀ sl, value (g sl) = value sl) →
  list_find (λ slot, strict_eq (value slot) v = true) (g <$> l)
  = prod_map id g <$> list_find (λ slot, strict_eq (value slot) v = true) l.
Proof.
  intros Hg. induction l as [|sl l IH]; csimpl; [done|].
  rewrite Hg. case_decide; [done|]. rewrite IH.
  by destruct (list_find _ l) as [[i a]|].
Qed.

Lemma after_frame op s :
  same_frame s (after strict_eq op s)
  ∧ ∀ y x, variation_of <$> cell (after strict_eq op s) y x
           = variation_of <$> cell s y x.
Proof.
  destruct (after_state strict_eq op s) as (mark & ps & Hmark & ->).
  destruct (for_each (assign_flag mark) ps s) as [r s'] eqn:Hrun. simpl.
  assert (Hrun' : same_frame s s'
                  ∧ ∃ ps1, ∀ y x, cell s' y x = marked_at mark ps1 y x <$> cell s y x).
  { destruct Hmark as [->| ->].
    - apply (for_each_assign mark_punched mark_punched_idemp mark_punched_skeleton)
        in Hrun as (? & ps1 & _ & _ & ? & _). eauto.
    - apply (for_each_assign mark_bingo mark_bingo_idemp mark_bingo_skeleton)
        in Hrun as (? & ps1 & _ & _ & ? & _). eauto. }
  destruct Hrun' as (Hfr & ps1 & Hcell). split; [done|].
  intros y x. rewrite Hcell. destruct (cell s y x) as [sl|]; simpl; [|done].
  f_equal. unfold marked_at. case_decide; [|done]. by destruct Hmark as [->| ->].
Qed.

Lemma horizontal_scan_raises (rows : list (list Slot)) n :
  ∀ k, k ≤ length rows →
       horizontal_scan rows n k = TypeError
       ↔ length rows < k + n
         ∧ ∀ j row, k ≤ j → rows !! j = Some row → forallb punched row = false.
Proof.
  induction n as [|n IH]; intros k Hk; simpl.
  - split; [done|]. intros [? _]. lia.
  - destruct (rows !! k) as [row|] eqn:Hrow.
    + pose proof (lookup_lt_Some _ _ _ Hrow).
      destruct (forallb punched row) eqn:Hp.
      * split; [done|]. intros [_ Hnone]. rewrite (Hnone k row) in Hp by done. done.
      * rewrite IH by lia. split; intros [? Hnone]; (split; [lia|]).
        -- intros j row' Hj Hrow'. destruct (decide (j = k)) as [->|].
           ++ congruence.
           ++ apply (Hnone j); [lia|done].
        -- intros j row' Hj. apply Hnone. lia.
    + apply lookup_ge_None in Hrow. split; [|done]. intros _. split; [lia|].
      intros j row Hj Hrow'. apply lookup_lt_Some in Hrow'. lia.
Qed.
End MethodMore.

(** * What else the methods of a sheet do *)

Section MethodExtras.
Context {Value : Type}.
Variable strict_eq : Value → Value → bool.
Variable random : nat → nat.
Variable now : nat.

Local Abbreviation Slot := (BingoSlot Value).
Local Abbreviation Sheet := (BingoSheet Value).

Implicit Types (s : Sheet) (sl h : Slot).

(** X8. On a sheet that generation has just returned there is no bingo:
    [getBingo] returns the empty list, [isBingo] returns [false], and
    neither changes the sheet. *)
Theorem generated_sheet_has_no_bingo fuel config (st : Store Value) s st' :
  init random now fuel config st = Some (Ok s, st') →
  getBingo s = (Ok [], s) ∧ isBingo s = (Ok false, s).
Proof.
  intros [Hwf Hfresh]%init_result.
  pose proof (untouched_getBingo s Hwf Hfresh) as Hrun.
  split; [done|]. by rewrite isBingo_unfold, Hrun.
Qed.

(** X9. Scanning then punching, on a sheet of the data model and with a
    strict equality that is symmetric and transitive as [===] is: when
    [hit] finds a slot and that slot is punched, every slot carrying the
    scanned value is punched, the slots carrying another value are left
    as they were, and the same scan then finds the same slot, punched. *)
Theorem scanned_value_gets_punched s payload h :
  (∀ a b, strict_eq a b = true → strict_eq b a = true) →
  (∀ a b c, strict_eq a b = true → strict_eq b c = true → strict_eq a c = true) →
  sheet_wf s →
  hit strict_eq payload s = (Ok (Some h), s) →
  ∃ s',
    punch strict_eq h s = (Ok s', s')
    ∧ (∀ y x sl, cell s y x = Some sl →
         strict_eq (value sl) (payload_value payload) = true →
         cell s' y x = Some (mark_punched sl))
    ∧ (∀ y x sl, cell s y x = Some sl →
         strict_eq (value sl) (payload_value payload) = false →
         cell s' y x = Some sl)
    ∧ hit strict_eq payload s' = (Ok (Some (mark_punched h)), s').
Proof.
  intros Hsym Htrans Hwf Hhit.
  unfold hit, bind, this, ret in Hhit. simpl in Hhit.
  destruct (list_find _ (flat (slots s))) as [[k h']|] eqn:Hfind; simplify_eq/=.
  pose proof Hfind as (_ & Hm & _)%list_find_Some.
  rewrite (punch_wf_map strict_eq h s Hwf).
  eexists. split; [done|]. split; [|split].
  - intros y x sl Hsl Hsm. rewrite cell_map_slots, Hsl. simpl.
    unfold punched_by. by rewrite (Htrans _ _ _ Hsm (Hsym _ _ Hm)).
  - intros y x sl Hsl Hsm. rewrite cell_map_slots, Hsl. simpl.
    unfold punched_by. destruct (strict_eq (value sl) (value h)) eqn:Hh; [|done].
    by rewrite (Htrans _ _ _ Hh Hm) in Hsm.
  - unfold hit, bind, this, ret. cbv beta iota.
    rewrite flat_map_slots, list_find_value by apply punched_by_value.
    rewrite Hfind. simpl. unfold punched_by.
    by rewrite (Htrans _ _ _ Hm (Hsym _ _ Hm)).
Qed.

(** X10. No sequence of operations changes anything of a sheet but flags:
    its dimensions, its [length], its date, the shape of its grid, and the
    value, display data and position of every slot stay what they were,
    whether the operations returned or raised. *)
Theorem operations_change_flags_only (ops : list (operation Value)) s :
  same_frame s (after_all strict_eq ops s)
  ∧ ∀ y x, variation_of <$> cell (after_all strict_eq ops s) y x
           = variation_of <$> cell s y x.
Proof.
  revert s. induction ops as [|op ops IH]; intros s; simpl.
  - split; [apply same_frame_refl|done].
  - destruct (after_frame strict_eq op s) as [Hfr Hcell].
    destruct (IH (after strict_eq op s)) as [Hfr' Hcell'].
    split; [by eapply same_frame_trans|].
    intros y x. by rewrite Hcell', Hcell.
Qed.

(** X11. On a sheet of the data model the order of two punches does not
    matter: they leave the same sheet. *)
Theorem punches_commute s a b :
  sheet_wf s →
  (punch strict_eq b (punch strict_eq a s).2).2
  = (punch strict_eq a (punch strict_eq b s).2).2.
Proof.
  intros Hwf.
  assert (Hkeep : ∀ v, sheet_wf (map_slots (punched_by strict_eq v) s)).
  { intros v. eapply same_frame_wf; [|done].
    apply map_slots_frame, punched_by_skeleton. }
  rewrite (punch_wf_map strict_eq a s Hwf), (punch_wf_map strict_eq b s Hwf). simpl.
  rewrite !punch_wf_map by done. simpl.
  rewrite !map_slots_compose. apply map_slots_ext. intros sl. simpl.
  unfold punched_by. simpl.
  destruct (strict_eq (value sl) (value a)) eqn:Ha,
    (strict_eq (value sl) (value b)) eqn:Hb; simpl; by rewrite ?Ha, ?Hb.
Qed.

(** X12. On any sheet, [punch] returns exactly when every slot whose
    value matches records a position that is on the grid, and raises a
    [TypeError] otherwise; when no slot matches it returns and leaves the
    sheet as it was. *)
Theorem punch_raises_only_off_grid s h :
  ((∃ s', punch strict_eq h s = (Ok s', s'))
   ↔ ∀ sl, sl ∈ matching strict_eq (value h) s → on_grid s (position sl))
  ∧ ((∃ s', punch strict_eq h s = (TypeError, s'))
     ↔ ∃ sl, sl ∈ matching strict_eq (value h) s ∧ ¬ on_grid s (position sl))
  ∧ (matching strict_eq (value h) s = [] → punch strict_eq h s = (Ok s, s)).
Proof.
  rewrite punch_unfold. unfold on_grid.
  destruct (for_each _ _ s) as [r s1] eqn:Hrun.
  pose proof Hrun as (_ & ps1 & ps2 & Hps & _ & Hsome & Hr)%(for_each_assign
    mark_punched mark_punched_idemp mark_punched_skeleton).
  split; [|split].
  - destruct r as [[]|].
    + split; [|eauto]. intros _ sl Hsl. subst ps2. rewrite app_nil_r in Hps.
      apply Hsome. rewrite <-Hps. apply list_elem_of_fmap. eauto.
    + split; [by intros [? ?]|]. intros Hall.
      destruct Hr as (p & ps3 & -> & Hnone).
      assert (Hp : p ∈ position <$> matching strict_eq (value h) s)
        by (rewrite Hps; apply elem_of_app; right; by left).
      apply list_elem_of_fmap in Hp as (sl & -> & Hsl).
      apply Hall in Hsl as [? ?]. congruence.
  - destruct r as [[]|].
    + split; [by intros [? ?]|]. intros (sl & Hsl & Hoff). exfalso. apply Hoff.
      subst ps2. rewrite app_nil_r in Hps.
      apply Hsome. rewrite <-Hps. apply list_elem_of_fmap. eauto.
    + split; [|eauto]. intros _.
      destruct Hr as (p & ps3 & -> & Hnone).
      assert (Hp : p ∈ position <$> matching strict_eq (value h) s)
        by (rewrite Hps; apply elem_of_app; right; by left).
      apply list_elem_of_fmap in Hp as (sl & -> & Hsl).
      exists sl. split; [done|]. rewrite Hnone. by intros [? ?].
  - intros Hnil. rewrite Hnil in Hrun. simpl in Hrun. unfold ret in Hrun.
    by simplify_eq.
Qed.



(** X15. On a sheet of the data model with at least one row and one
    column, [isBingo] returns [true] exactly when some row, some column
    or, on a square sheet, one of the diagonals is fully punched; it
    leaves the sheet as [getBingo] does, flags included. *)
Theorem isBingo_iff_a_line_is_complete s :
  sheet_wf s → 0 < width s → 0 < height s →
  ∃ b, isBingo s = (Ok b, (getBingo s).2)
       ∧ (b = true ↔ has_complete_line s).
Proof.
  intros Hwf Hw Hh.
  destruct (getBingo_wf s Hwf) as (hs & vs & ds & _ & _ & _ & _ & _ & Hrun).
  pose proof (found_iff_complete_line s _ _ Hwf Hw Hh Hrun) as Hiff.
  rewrite isBingo_unfold, Hrun. simpl. eexists. split; [done|].
  rewrite <-Hiff. by destruct ((hs ++ vs) ++ ds).
Qed.

(** X16. A bingo is not lost by punching: on a sheet of the data model
    with at least one row and one column, if [isBingo] returns [true] it
    still does after any [punch]. *)
Theorem bingo_survives_punch s h :
  sheet_wf s → 0 < width s → 0 < height s →
  (isBingo s).1 = Ok true →
  (isBingo (punch strict_eq h s).2).1 = Ok true.
Proof.
  intros Hwf Hw Hh Hb.
  set (g := punched_by strict_eq (value h)).
  assert (Hwf' : sheet_wf (map_slots g s)).
  { eapply same_frame_wf; [|done]. apply map_slots_frame, punched_by_skeleton. }
  assert (Hkeep : ∀ l : list Slot,
            fully_punched l = true → fully_punched (g <$> l) = true).
  { unfold fully_punched. induction l as [|sl l IH]; csimpl; [done|].
    intros [Hsl Hl]%andb_prop. apply andb_true_intro.
    split; [by apply punched_by_keeps|by apply IH]. }
  assert (Hline : has_complete_line s → has_complete_line (map_slots g s)).
  { destruct (lines_map g s) as (Hr & Hc & Hm & Ha).
    unfold has_complete_line. simpl. rewrite Hm, Ha.
    intros [(k & ? & ?)|[(k & ? & ?)|[? [?|?]]]].
    - left. exists k. rewrite Hr. auto.
    - right. left. exists k. rewrite Hc. auto.
    - right. right. auto.
    - right. right. auto. }
  rewrite (punch_wf_map strict_eq h s Hwf). simpl. fold g.
  destruct (getBingo_wf s Hwf) as (hs & vs & ds & _ & _ & _ & _ & _ & Hrun).
  destruct (getBingo_wf _ Hwf') as (hs' & vs' & ds' & _ & _ & _ & _ & _ & Hrun').
  pose proof (found_iff_complete_line s _ _ Hwf Hw Hh Hrun) as Hiff.
  pose proof (found_iff_complete_line _ _ _ Hwf' Hw Hh Hrun') as Hiff'.
  rewrite isBingo_unfold, Hrun in Hb. rewrite isBingo_unfold, Hrun'. simpl in *.
  assert (Hfound : (hs' ++ vs') ++ ds' ≠ []).
  { apply Hiff', Hline, Hiff. by destruct ((hs ++ vs) ++ ds). }
  by destruct ((hs' ++ vs') ++ ds').
Qed.

(** X17. On any sheet, [getHorizontalBingo] raises a [TypeError] exactly
    when the grid holds fewer rows than [height] says and none of the rows
    it holds is fully punched; it never changes the sheet. *)
Theorem getHorizontalBingo_raises_on_missing_rows s :
  (getHorizontalBingo s = (TypeError, s)
   ↔ length (slots s) < height s
     ∧ ∀ row, row ∈ slots s → fully_punched row = false)
  ∧ (getHorizontalBingo s).2 = s.
Proof.
  unfold getHorizontalBingo, bind, this, lift. simpl. split; [|done].
  pose proof (horizontal_scan_raises (slots s) (height s) 0 ltac:(lia)) as Hiff.
  split.
  - intros Hrun. injection Hrun as Hrun. apply Hiff in Hrun as [? Hnone].
    split; [lia|]. intros row [j Hj]%list_elem_of_lookup.
    apply (Hnone j); [lia|done].
  - intros [? Hnone]. f_equal. apply Hiff. split; [lia|].
    intros j row _ Hj. apply Hnone. by eapply list_elem_of_lookup_2.
Qed.
End MethodExtras.

(** * These properties at the sample inputs *)

Lemma eqb_sym (a b : nat) : (a =? b) = true → (b =? a) = true.
Proof. rewrite !Nat.eqb_eq. lia. Qed.

Lemma eqb_trans (a b c : nat) :
  (a =? b) = true → (b =? c) = true → (a =? c) = true.
Proof. rewrite !Nat.eqb_eq. lia. Qed.

Lemma catalog_NoDup : NoDup Demo.catalog.
Proof. apply NoDup_cons. split; [|apply NoDup_singleton]. by intros ?%list_elem_of_singleton. Qed.

Lemma arrayShuffle_first_draw_settles_last_witness :
  [1; 2; 3] ≠ []
  ∧ (arrayShuffle Demo.counting [1; 2; 3] 0).1 !! (length [1; 2; 3] - 1)
    = [1; 2; 3] !! (Demo.counting 0 mod length [1; 2; 3]).
Proof.
  split; [discriminate|].
  apply (arrayShuffle_first_draw_settles_last Demo.counting [1; 2; 3] 0).
  discriminate.
Defined.

Lemma getShuffledListWithLength_exact_witness :
  variations Demo.store ≠ [] ∧ 5 ≤ 5
  ∧ ∃ vs st',
      getShuffledListWithLength Demo.counting 5 5 Demo.store = Some (vs, st')
      ∧ length vs = 5
      ∧ ∀ v, v ∈ vs → v ∈ variations Demo.store.
Proof.
  split; [discriminate|]. split; [lia|].
  apply (getShuffledListWithLength_exact Demo.counting 5 5 Demo.store);
    [discriminate|lia].
Defined.

Lemma generation_is_balanced_witness :
  1 ≤ length (variations Demo.store)
  ∧ sheet_width Demo.config * sheet_height Demo.config ≤ 6
  ∧ ∃ s st',
      init Demo.counting 0 6 Demo.config Demo.store = Some (Ok s, st')
      ∧ draws st' = 0 + (6 + 2 - 1) / 2 * (2 - 1)
      ∧ ∀ e, occurrences e (flat (slots s))
             ≤ (6 + 2 - 1) / 2 * count_of e (variations Demo.store).
Proof.
  split; [simpl; lia|]. split; [simpl; lia|].
  apply (generation_is_balanced Demo.counting 0 6 Demo.config Demo.store);
    simpl; lia.
Defined.

Lemma generation_without_repeats_witness :
  NoDup (variations Demo.store) ∧ variations Demo.store ≠ []
  ∧ sheet_width Setup.pair * sheet_height Setup.pair ≤ length (variations Demo.store)
  ∧ sheet_width Setup.pair * sheet_height Setup.pair ≤ 2
  ∧ ∃ s st',
      init Demo.counting 0 2 Setup.pair Demo.store = Some (Ok s, st')
      ∧ NoDup (variation_of <$> flat (slots s)).
Proof.
  split; [exact catalog_NoDup|]. split; [discriminate|].
  split; [simpl; lia|]. split; [simpl; lia|].
  apply (generation_without_repeats Demo.counting 0 2 Setup.pair Demo.store);
    [exact catalog_NoDup|discriminate|simpl; lia|simpl; lia].
Defined.

Lemma init_of_an_empty_grid_witness :
  sheet_width Setup.hollow * sheet_height Setup.hollow = 0
  ∧ init Demo.counting 0 0 Setup.hollow Demo.empty_store
    = Some (Ok (new_BingoSheet 0 0 3 [[]; []; []] None), Demo.empty_store).
Proof.
  split; [reflexivity|].
  apply (init_of_an_empty_grid Demo.counting 0 0 Setup.hollow Demo.empty_store).
  reflexivity.
Defined.

Lemma generated_sheet_is_fresh_witness :
  ∃ s st',
    init Demo.counting 0 6 Demo.config Demo.store = Some (Ok s, st')
    ∧ width s = 3 ∧ height s = 2 ∧ sheet_length s = 6 ∧ untouched s.
Proof.
  eexists _, _. split; [reflexivity|].
  destruct (generated_sheet_is_fresh Demo.counting 0 6 Demo.config Demo.store
              _ _ eq_refl) as (Hw & Hh & Hl & _ & _ & Hfresh & _).
  split; [exact Hw|]. split; [exact Hh|]. split; [exact Hl|exact Hfresh].
Defined.

Lemma generated_sheet_has_no_bingo_witness :
  ∃ s st',
    init Demo.counting 0 6 Demo.config Demo.store = Some (Ok s, st')
    ∧ getBingo s = (Ok [], s) ∧ isBingo s = (Ok false, s).
Proof.
  eexists _, _. split; [reflexivity|].
  apply (generated_sheet_has_no_bingo Demo.counting 0 6 Demo.config Demo.store
           _ _ eq_refl).
Defined.

Lemma scanned_value_gets_punched_witness :
  sheet_wf Demo.square
  ∧ hit Nat.eqb {| payload_value := 2 |} Demo.square
    = (Ok (Some (Demo.slot 2 1 0 false)), Demo.square)
  ∧ ∃ s',
      punch Nat.eqb (Demo.slot 2 1 0 false) Demo.square = (Ok s', s')
      ∧ hit Nat.eqb {| payload_value := 2 |} s'
        = (Ok (Some (mark_punched (Demo.slot 2 1 0 false))), s').
Proof.
  split; [exact square_wf|]. split; [reflexivity|].
  destruct (scanned_value_gets_punched Nat.eqb Demo.square {| payload_value := 2 |}
              (Demo.slot 2 1 0 false) eqb_sym eqb_trans square_wf eq_refl)
    as (s' & Hrun & _ & _ & Hhit).
  exists s'. split; [exact Hrun|exact Hhit].
Defined.

Lemma punches_commute_witness :
  sheet_wf Demo.square
  ∧ (punch Nat.eqb (Demo.slot 4 0 1 false)
       (punch Nat.eqb (Demo.slot 2 1 0 false) Demo.square).2).2
    = (punch Nat.eqb (Demo.slot 2 1 0 false)
         (punch Nat.eqb (Demo.slot 4 0 1 false) Demo.square).2).2.
Proof.
  split; [exact square_wf|].
  apply (punches_commute Nat.eqb Demo.square). exact square_wf.
Defined.



Lemma isBingo_iff_a_line_is_complete_witness :
  sheet_wf Demo.square ∧ 0 < width Demo.square ∧ 0 < height Demo.square
  ∧ ∃ b, isBingo Demo.square = (Ok b, (getBingo Demo.square).2)
         ∧ (b = true ↔ has_complete_line Demo.square).
Proof.
  split; [exact square_wf|]. split; [simpl; lia|]. split; [simpl; lia|].
  apply (isBingo_iff_a_line_is_complete Demo.square square_wf); simpl; lia.
Defined.

Lemma bingo_survives_punch_witness :
  sheet_wf Demo.square ∧ 0 < width Demo.square ∧ 0 < height Demo.square
  ∧ (isBingo Demo.square).1 = Ok true
  ∧ (isBingo (punch Nat.eqb (Demo.slot 4 0 1 false) Demo.square).2).1 = Ok true.
Proof.
  split; [exact square_wf|]. split; [simpl; lia|]. split; [simpl; lia|].
  split; [reflexivity|].
  apply (bingo_survives_punch Nat.eqb Demo.square (Demo.slot 4 0 1 false) square_wf);
    [simpl; lia|simpl; lia|reflexivity].
Defined.

(** A slot that records a position off the grid makes [punch] raise, and
    a grid short of rows makes the horizontal scan raise. *)
Example punch_stray :
  punch Nat.eqb (Demo.slot 2 0 0 false) Malformed.stray
  = (TypeError, Malformed.stray).
Proof. reflexivity. Qed.

Example getHorizontalBingo_short :
  getHorizontalBingo Malformed.short = (TypeError, Malformed.short).
Proof. reflexivity. Qed.

(** * Generation and the methods together *)

Section SheetLife.
Context {Value : Type}.
Variable strict_eq : Value → Value → bool.
Variable random : nat → nat.
Variable now : nat.

Local Abbreviation Slot := (BingoSlot Value).
Local Abbreviation Sheet := (BingoSheet Value).
Local Abbreviation Catalog := (list (IBingoSlotConfig Value)).
Local Abbreviation created w vs := (imap (λ i v, createSlot v i w) (vs : Catalog)).

Implicit Types (s : Sheet) (sl h : Slot).

Lemma wf_never_raises op s : sheet_wf s → ¬ raises strict_eq op s.
Proof.
  intros Hwf.
  destruct (getBingo_wf s Hwf) as (hs & vs & ds & Hh & Hv & Hd & _ & _ & Hrun).
  destruct op as [payload|h| | | | |]; simpl.
  - done.
  - by rewrite (punch_wf_map strict_eq h s Hwf).
  - by rewrite Hrun.
  - by rewrite isBingo_unfold, Hrun.
  - unfold getHorizontalBingo, bind, this, lift. simpl. by rewrite Hh.
  - unfold getVerticalBingo, bind, this, lift. simpl. by rewrite Hv.
  - unfold getDiagonalBingo, bind, this, lift. simpl. by rewrite Hd.
Qed.

(** The first shuffle is whole in the truncated sequence when the sheet
    has room for it. *)
Lemma first_block_kept (arr : Catalog) (bs : list Catalog) len e :
  Forall (λ b, b ≡ₚ arr) bs → length arr ≤ len → len ≤ length (mjoin bs) →
  0 < len → e ∈ arr → e ∈ take len (mjoin bs).
Proof.
  intros Hbs Hc Hlen Hpos He. destruct bs as [|b bs]; simpl in *; [lia|].
  apply Forall_cons in Hbs as [Hb _].
  rewrite take_app_ge by (rewrite (Permutation_length Hb); lia).
  apply elem_of_app. left. by rewrite Hb.
Qed.

(** X18. On a sheet of the data model no operation raises, and none does
    after any sequence of operations either. *)
Theorem data_model_sheets_never_raise (ops : list (operation Value)) op s :
  sheet_wf s → ¬ raises strict_eq op (after_all strict_eq ops s).
Proof. intros Hwf. by apply wf_never_raises, after_all_keeps_wf. Qed.

(** X19. When the sheet has at least as many slots as the catalog has
    entries, every catalog entry is on the sheet: scanning the value of an
    entry, if that value is strictly equal to itself, finds a slot with a
    value strictly equal to it. *)
Theorem every_entry_can_be_scanned fuel config (st : Store Value) e :
  0 < length (variations st) →
  length (variations st) ≤ sheet_width config * sheet_height config →
  sheet_width config * sheet_height config ≤ fuel →
  e ∈ variations st →
  strict_eq (cfg_value e) (cfg_value e) = true →
  ∃ s st' h,
    init random now fuel config st = Some (Ok s, st')
    ∧ e ∈ variation_of <$> flat (slots s)
    ∧ hit strict_eq {| payload_value := cfg_value e |} s = (Ok (Some h), s)
    ∧ strict_eq (value h) (cfg_value e) = true.
Proof.
  intros Hc Hroom Hfuel He Hrefl.
  assert (Hne : variations st ≠ []) by (intros Hnil; rewrite Hnil in Hc; simpl in Hc; lia).
  destruct (init_total random now fuel config st Hne Hfuel) as [[r st'] Hinit].
  destruct (init_run random now fuel config st r st' Hinit) as (dest & Hrun & Hlen & ->).
  set (w := sheet_width config) in *. set (ht := sheet_height config) in *.
  destruct (fill_loop_spec random fuel (variations st) _ _ _ _ _ Hrun)
    as ((bs & -> & Hbs) & _ & _ & _); [apply in_blocks_nil|done|].
  assert (Hflat : flat (chunks w ht (created w (take (w * ht) (mjoin bs))))
                  = created w (take (w * ht) (mjoin bs))).
  { rewrite chunks_flat. apply take_ge. rewrite length_imap, length_take. lia. }
  assert (Hon : e ∈ variation_of
                      <$> flat (chunks w ht (created w (take (w * ht) (mjoin bs))))).
  { rewrite Hflat, created_variations.
    apply (first_block_kept (variations st)); [done|lia|done|lia|done]. }
  assert (Hsome : is_Some (list_find (λ slot : Slot,
                     strict_eq (value slot) (cfg_value e) = true)
                     (flat (chunks w ht (created w (take (w * ht) (mjoin bs))))))).
  { apply list_elem_of_fmap in Hon as (sl & -> & Hsl).
    destruct (list_find _ _) as [found|] eqn:Hfind; [by eexists|].
    rewrite list_find_None, Forall_forall in Hfind.
    by destruct (Hfind sl Hsl). }
  destruct Hsome as [[k h] Hfind].
  pose proof Hfind as (_ & Hm & _)%list_find_Some.
  eexists _, st', h. split; [done|]. split; [done|].
  unfold hit, bind, this, ret. simpl. by rewrite Hfind.
Qed.
End SheetLife.

Lemma every_entry_can_be_scanned_witness :
  0 < length (variations Demo.store)
  ∧ length (variations Demo.store) ≤ sheet_width Demo.config * sheet_height Demo.config
  ∧ sheet_width Demo.config * sheet_height Demo.config ≤ 6
  ∧ Demo.entry 2 "B" ∈ variations Demo.store
  ∧ (cfg_value (Demo.entry 2 "B") =? cfg_value (Demo.entry 2 "B")) = true
  ∧ ∃ s st' h,
      init Demo.counting 0 6 Demo.config Demo.store = Some (Ok s, st')
      ∧ Demo.entry 2 "B" ∈ variation_of <$> flat (slots s)
      ∧ hit Nat.eqb {| payload_value := 2 |} s = (Ok (Some h), s)
      ∧ (value h =? 2) = true.
Proof.
  assert (Hin : Demo.entry 2 "B" ∈ variations Demo.store)
    by (apply elem_of_cons; right; apply list_elem_of_singleton; reflexivity).
  split; [simpl; lia|]. split; [simpl; lia|]. split; [simpl; lia|].
  split; [exact Hin|]. split; [reflexivity|].
  apply (every_entry_can_be_scanned Nat.eqb Demo.counting 0 6 Demo.config
           Demo.store (Demo.entry 2 "B"));
    [simpl; lia|simpl; lia|simpl; lia|exact Hin|reflexivity].
Defined.

Lemma data_model_sheets_never_raise_witness :
  sheet_wf Demo.square
  ∧ ¬ raises Nat.eqb OpGetBingo
        (after_all Nat.eqb [OpPunch (Demo.slot 4 0 1 false); OpIsBingo] Demo.square).
Proof.
  split; [exact square_wf|].
  apply (data_model_sheets_never_raise Nat.eqb). exact square_wf.
Defined.
